(** * Geographic name cleaner: normalisation and fuzzy correction

    A shallow embedding of [app.py]: the text normaliser, the two seed
    dictionaries, the fuzzy corrector (built on [difflib.get_close_matches]),
    the table cleaner [clean_file], the extension test [allowed_file] and
    the [/clean] route.

    Conventions of the embedding.
    - A Python [str] is a [string]; a character is a code point in the range
      U+0000..U+00FF (Rocq's 8-bit [ascii] read as Latin-1).  The character
      classes below follow CPython's Unicode tables on that range.
    - A raised exception is a value [Raise e] of the [result] type.
    - [difflib] and [heapq] are standard-library modules called by the
      program; they are embedded from CPython's [difflib.py] and [heapq.py].
    - A similarity ratio is the exact rational [2*M/T].  CPython evaluates
      [2.0*M/T] in binary64 and compares it with the binary64 literal [0.85];
      both the division and the literal are correctly rounded, so for strings
      shorter than 2^25 characters the comparisons agree with the exact ones.
      Against another cutoff the two comparisons can differ for a ratio that
      lies less than half a unit in the last place below the cutoff (the
      ratio 5/6 against the cutoff 0.8333333333333334): a property that
      depends on the side of the cutoff a ratio falls on is stated for the
      default cutoff only.
    - A column label of a table is text or another scalar.  The pandas
      readers and writers and [FileStorage.save] are parameters: a reader
      returns a table or raises; a writer or [save] is handed a path and
      returns after storing a file there, or raises, having left the path
      alone or having left a file under it. *)

From Stdlib Require Import ZArith QArith Lqa Ascii String List Lia Permutation.
From stdpp Require Import gmap strings list fin_maps gmultiset sorting.

Local Open Scope string_scope.
Local Open Scope list_scope.
Local Open Scope Z_scope.

(** ** Exceptions *)

(** [ValueError msg] is an instance of [ValueError] or of one of its
    subclasses, with [msg] its [str]; [IOError] is [OSError]. *)
Inductive exn : Type :=
  | ValueError (msg : string)
  | KeyError (key : string)
  | TypeError
  | IndexError
  | AttributeError
  | IOError.

(** The outcome of a call: a returned value, a raised exception, or
    [Unfinished] when a loop of the embedding used up its iteration bound
    (the bounds are shown to be sufficient, see [get_matching_blocks_ok]). *)
Inductive result (A : Type) : Type :=
  | Ok (x : A)
  | Raise (e : exn)
  | Unfinished.
Arguments Ok {A} x.
Arguments Raise {A} e.
Arguments Unfinished {A}.

Definition bind {A B : Type} (r : result A) (k : A -> result B) : result B :=
  match r with
  | Ok x => k x
  | Raise e => Raise e
  | Unfinished => Unfinished
  end.

Notation "x <- r ;; k" := (bind r (fun x => k))
  (at level 100, r at next level, right associativity).

(** ** Characters and [str] methods *)

Module Str.

Definition ord (c : ascii) : N := N_of_ascii c.
Definition chr (n : N) : ascii := ascii_of_N n.

Definition between (lo hi n : N) : bool := ((lo <=? n) && (n <=? hi))%N.

(** [str.isspace] on one character, which is also the class [\s] of [re] for
    [str] patterns: TAB..CR, FS..US, SPACE, NEL and NBSP. *)
Definition isspace (c : ascii) : bool :=
  let n := ord c in
  (between 9 13 n || between 28 32 n || (n =? 133) || (n =? 160))%N.

(** Upper-case letters that have a lower-case partner 32 places further. *)
Definition isupper (c : ascii) : bool :=
  let n := ord c in
  (between 65 90 n || between 192 214 n || between 216 222 n)%N.

(** Lower-case letters whose upper-case partner lies 32 places before. *)
Definition islower_paired (c : ascii) : bool :=
  let n := ord c in
  (between 97 122 n || between 224 246 n || between 248 254 n)%N.

(** [str.isalnum] on one character (alphabetic, decimal, digit or numeric). *)
Definition isalnum (c : ascii) : bool :=
  let n := ord c in
  (between 48 57 n || between 65 90 n || between 97 122 n
   || (n =? 170) || (n =? 178) || (n =? 179) || (n =? 181) || (n =? 185)
   || (n =? 186) || between 188 190 n
   || between 192 214 n || between 216 246 n || between 248 255 n)%N.

(** The class [\w] of [re]: alphanumeric or underscore. *)
Definition isword (c : ascii) : bool := isalnum c || (ord c =? 95)%N.

Definition lower_char (c : ascii) : ascii :=
  if isupper c then chr (ord c + 32) else c.

(** [str.lower()] *)
Fixpoint lower (s : string) : string :=
  match s with
  | EmptyString => EmptyString
  | String c s' => String (lower_char c) (lower s')
  end.

(** [str.upper()]; U+00DF becomes "SS", and the upper-case forms of U+00B5
    and U+00FF lie outside the modelled range: [None] there. *)
Definition upper_char (c : ascii) : option string :=
  let n := ord c in
  if islower_paired c then Some (String (chr (n - 32)) EmptyString)
  else if (n =? 223)%N then Some "SS"
  else if ((n =? 181) || (n =? 255))%N then None
  else Some (String c EmptyString).

Fixpoint upper (s : string) : option string :=
  match s with
  | EmptyString => Some EmptyString
  | String c s' =>
      match upper_char c, upper s' with
      | Some u, Some r => Some (u ++ r)%string
      | _, _ => None
      end
  end.

Fixpoint lstrip (s : string) : string :=
  match s with
  | EmptyString => EmptyString
  | String c s' => if isspace c then lstrip s' else s
  end.

Fixpoint rstrip (s : string) : string :=
  match s with
  | EmptyString => EmptyString
  | String c s' =>
      match rstrip s' with
      | EmptyString => if isspace c then EmptyString else String c EmptyString
      | r => String c r
      end
  end.

(** [str.strip()] *)
Definition strip (s : string) : string := rstrip (lstrip s).

(** [re.sub(p, repl, s)] for a pattern [p] that is a single character class
    [cls]: every character in the class is replaced by [repl], scanning from
    the left. *)
Fixpoint re_sub_class (cls : ascii -> bool) (repl : string) (s : string) : string :=
  match s with
  | EmptyString => EmptyString
  | String c s' =>
      if cls c then (repl ++ re_sub_class cls repl s')%string
      else String c (re_sub_class cls repl s')
  end.

(** The class [[^\w\s]]. *)
Definition not_word_space (c : ascii) : bool := negb (isword c || isspace c).

(** [s.endswith(suffix)] *)
Fixpoint endswith (s suffix : string) : bool :=
  if String.eqb s suffix then true
  else match s with
       | EmptyString => false
       | String _ s' => endswith s' suffix
       end.

(** [needle in hay] for two strings. *)
Fixpoint contains (needle hay : string) : bool :=
  if String.prefix needle hay then true
  else match hay with
       | EmptyString => false
       | String _ hay' => contains needle hay'
       end.

(** [s1 > s2]: code-point lexicographic order. *)
Definition gt (s1 s2 : string) : bool :=
  match String.compare s1 s2 with Gt => true | _ => false end.

(** What the specification calls "every character that is not a word
    character or whitespace removed". *)
Fixpoint keep (p : ascii -> bool) (s : string) : string :=
  match s with
  | EmptyString => EmptyString
  | String c s' => if p c then String c (keep p s') else keep p s'
  end.

Fixpoint all (p : ascii -> bool) (s : string) : bool :=
  match s with
  | EmptyString => true
  | String c s' => p c && all p s'
  end.

End Str.

(** ** Cell values *)

(** A cell of a pandas table: one of the missing markers, a [str], or another
    scalar (an integer, a float that is not NaN, a boolean, ...), which the
    program only ever observes through [str()]. *)
Inductive value : Type :=
  | PyNone
  | NaN
  | NaT
  | NA
  | Text (s : string)
  | Scalar (repr : string).

(** [pd.isna] on a scalar. *)
Definition isna (v : value) : bool :=
  match v with
  | PyNone | NaN | NaT | NA => true
  | Text _ | Scalar _ => false
  end.

(** [str(v)] *)
Definition py_str (v : value) : string :=
  match v with
  | PyNone => "None"
  | NaN => "nan"
  | NaT => "NaT"
  | NA => "<NA>"
  | Text s => s
  | Scalar r => r
  end.

(** ** HELPERS: [normalize] *)

(** The two assignments to [text] after the missing-value test. *)
Definition normalize_text (s : string) : string :=
  let text := Str.strip (Str.lower s) in
  Str.re_sub_class Str.not_word_space EmptyString text.

(** [normalize(text)]; Python's [None] result is [None]. *)
Definition normalize (text : value) : option string :=
  if isna text then None
  else Some (normalize_text (py_str text)).

(** ** [heapq.nlargest] and the comparisons it relies on *)

Module Heapq.

Section Max.
Context {A : Type} (gt : A -> A -> bool).

(** The loop of the builtin [max]: the running maximum is replaced only by
    an item that is strictly greater. *)
Fixpoint max_from (maxitem : A) (it : list A) : A :=
  match it with
  | [] => maxitem
  | item :: it' => max_from (if gt item maxitem then item else maxitem) it'
  end.

(** [max(it, default=sentinel)]; the sentinel is [None]. *)
Definition py_max (it : list A) : option A :=
  match it with
  | [] => None
  | x :: it' => Some (max_from x it')
  end.

(** [sorted(iterable, reverse=True)] *)
Fixpoint insert_desc (x : A) (l : list A) : list A :=
  match l with
  | [] => [x]
  | y :: l' => if gt y x then y :: insert_desc x l' else x :: l
  end.

Definition sorted_reverse (l : list A) : list A :=
  fold_right insert_desc [] l.

(** [nlargest(n, iterable)]: the shortcut through [max] for [n == 1], and
    what the other branches are documented to be equivalent to,
    [sorted(iterable, reverse=True)[:n]]. *)
Definition nlargest (n : Z) (iterable : list A) : list A :=
  if n =? 1 then
    match py_max iterable with
    | None => []
    | Some result => [result]
    end
  else take (Z.to_nat n) (sorted_reverse iterable).
End Max.

(** [t1 > t2] for two tuples [(score, x)]: the first components that differ
    decide, and equal tuples are not greater. *)
Definition tuple_gt (t1 t2 : Q * string) : bool :=
  if Qeq_bool (fst t1) (fst t2) then
    if String.eqb (snd t1) (snd t2) then false
    else Str.gt (snd t1) (snd t2)
  else negb (Qle_bool (fst t1) (fst t2)).

End Heapq.

(** ** [difflib]: [SequenceMatcher] and [get_close_matches] *)

Module Difflib.

(** [s[i]]: a negative index counts from the end; [None] is [IndexError]. *)
Definition getitem {A : Type} (s : list A) (i : Z) : option A :=
  let i' := if i <? 0 then i + Z.of_nat (length s) else i in
  if i' <? 0 then None else s !! Z.to_nat i'.

Definition index {A : Type} (s : list A) (i : Z) : result A :=
  match getitem s i with
  | Some x => Ok x
  | None => Raise IndexError
  end.

(** [Match(a, b, size)] *)
Record Match : Type := mkMatch { m_a : Z; m_b : Z; m_size : Z }.

Record SequenceMatcher : Type := mkSequenceMatcher {
  isjunk : option (ascii -> bool);
  autojunk : bool;
  a : list ascii;
  b : list ascii;
  b2j : gmap ascii (list Z);
  bjunk : gset ascii;
  bpopular : gset ascii
}.

(** The first loop of [__chain_b]: [b2j.setdefault(elt, []).append(i)]. *)
Definition chain_indices (b : list ascii) : gmap ascii (list Z) :=
  fold_left
    (fun (b2j : gmap ascii (list Z)) (ie : Z * ascii) =>
       let (i, elt) := ie in
       <[elt := default [] (b2j !! elt) ++ [i]]> b2j)
    (zip (seqZ 0 (Z.of_nat (length b))) b) ∅.

Definition junk_test (isjunk : option (ascii -> bool)) (elt : ascii) : bool :=
  match isjunk with
  | Some f => f elt
  | None => false
  end.

(** [__chain_b]: index [b], purge the junk elements, then purge the popular
    ones when [b] has at least 200 elements. *)
Definition chain_b (isjunk : option (ascii -> bool)) (autojunk : bool)
    (b : list ascii) : gmap ascii (list Z) * gset ascii * gset ascii :=
  let b2j := chain_indices b in
  let junk : gset ascii :=
    dom (filter (fun kv : ascii * list Z => junk_test isjunk (fst kv) = true) b2j) in
  let b2j := filter (fun kv : ascii * list Z => fst kv ∉ junk) b2j in
  let n := Z.of_nat (length b) in
  if autojunk && (200 <=? n) then
    let ntest := n / 100 + 1 in
    let popular : gset ascii :=
      dom (filter (fun kv : ascii * list Z =>
                     ntest < Z.of_nat (length (snd kv))) b2j) in
    let b2j := filter (fun kv : ascii * list Z => fst kv ∉ popular) b2j in
    (b2j, junk, popular)
  else (b2j, junk, ∅).

(** [SequenceMatcher(isjunk=None, a='', b='', autojunk=True)] *)
Definition set_seq1 (s : SequenceMatcher) (a : list ascii) : SequenceMatcher :=
  mkSequenceMatcher (isjunk s) (autojunk s) a (b s) (b2j s) (bjunk s) (bpopular s).

Definition set_seq2 (s : SequenceMatcher) (b : list ascii) : SequenceMatcher :=
  let '(b2j, junk, popular) := chain_b (isjunk s) (autojunk s) b in
  mkSequenceMatcher (isjunk s) (autojunk s) (a s) b b2j junk popular.

Definition new_matcher : SequenceMatcher :=
  set_seq2 (set_seq1 (mkSequenceMatcher None true [] [] ∅ ∅ ∅) []) [].

(** The running best match [(besti, bestj, bestsize)]. *)
Definition best : Type := (Z * Z * Z)%type.

Section FindLongestMatch.
Variable s : SequenceMatcher.
Variables alo ahi blo bhi : Z.

Definition isbjunk (c : ascii) : bool := bool_decide (c ∈ bjunk s).

(** The loop over the positions [j] of [a[i]] in [b]. *)
Fixpoint scan_row (i : Z) (j2len : gmap Z Z) (js : list Z)
    (newj2len : gmap Z Z) (bst : best) : gmap Z Z * best :=
  match js with
  | [] => (newj2len, bst)
  | j :: js' =>
      if j <? blo then scan_row i j2len js' newj2len bst
      else if bhi <=? j then (newj2len, bst)
      else
        let k := default 0 (j2len !! (j - 1)) + 1 in
        let newj2len := <[j := k]> newj2len in
        let bst :=
          let '(besti, bestj, bestsize) := bst in
          if bestsize <? k then (i - k + 1, j - k + 1, k) else bst in
        scan_row i j2len js' newj2len bst
  end.

(** The loop [for i in range(alo, ahi)]. *)
Fixpoint scan_rows (is_ : list Z) (j2len : gmap Z Z) (bst : best)
    : result best :=
  match is_ with
  | [] => Ok bst
  | i :: is' =>
      ai <- index (a s) i ;;
      let '(newj2len, bst) :=
        scan_row i j2len (default [] (b2j s !! ai)) ∅ bst in
      scan_rows is' newj2len bst
  end.

(** The guard of the two loops that grow the match to the left; [junk]
    tells whether the element of [b] must be junk or must not be. *)
Definition can_extend_left (junk : bool) (bst : best) : result bool :=
  let '(besti, bestj, bestsize) := bst in
  if (alo <? besti) && (blo <? bestj) then
    bj <- index (b s) (bestj - 1) ;;
    if Bool.eqb (isbjunk bj) junk then
      ai <- index (a s) (besti - 1) ;;
      Ok (Ascii.eqb ai bj)
    else Ok false
  else Ok false.

Definition can_extend_right (junk : bool) (bst : best) : result bool :=
  let '(besti, bestj, bestsize) := bst in
  if (besti + bestsize <? ahi) && (bestj + bestsize <? bhi) then
    bj <- index (b s) (bestj + bestsize) ;;
    if Bool.eqb (isbjunk bj) junk then
      ai <- index (a s) (besti + bestsize) ;;
      Ok (Ascii.eqb ai bj)
    else Ok false
  else Ok false.

(** [while ...: besti, bestj, bestsize = besti-1, bestj-1, bestsize+1];
    the loop runs at most [besti - alo] times. *)
Fixpoint extend_left (bound : nat) (junk : bool) (bst : best) : result best :=
  go <- can_extend_left junk bst ;;
  if go then
    match bound with
    | O => Unfinished
    | S bound' =>
        let '(besti, bestj, bestsize) := bst in
        extend_left bound' junk (besti - 1, bestj - 1, bestsize + 1)
    end
  else Ok bst.

(** [while ...: bestsize += 1]; at most [ahi - (besti + bestsize)] times. *)
Fixpoint extend_right (bound : nat) (junk : bool) (bst : best) : result best :=
  go <- can_extend_right junk bst ;;
  if go then
    match bound with
    | O => Unfinished
    | S bound' =>
        let '(besti, bestj, bestsize) := bst in
        extend_right bound' junk (besti, bestj, bestsize + 1)
    end
  else Ok bst.

Definition left_bound (bst : best) : nat :=
  let '(besti, _, _) := bst in Z.to_nat (besti - alo).

Definition right_bound (bst : best) : nat :=
  let '(besti, _, bestsize) := bst in Z.to_nat (ahi - (besti + bestsize)).

(** [find_longest_match(alo, ahi, blo, bhi)] *)
Definition find_longest_match : result Match :=
  bst <- scan_rows (seqZ alo (ahi - alo)) ∅ (alo, blo, 0) ;;
  bst <- extend_left (left_bound bst) false bst ;;
  bst <- extend_right (right_bound bst) false bst ;;
  bst <- extend_left (left_bound bst) true bst ;;
  bst <- extend_right (right_bound bst) true bst ;;
  let '(besti, bestj, bestsize) := bst in
  Ok (mkMatch besti bestj bestsize).
End FindLongestMatch.

(** Tuple order of [Match] triples, used by [matching_blocks.sort()]. *)
Definition match_leb (x y : Match) : bool :=
  if m_a x =? m_a y then
    if m_b x =? m_b y then m_size x <=? m_size y
    else m_b x <? m_b y
  else m_a x <? m_a y.

Definition match_le (x y : Match) : Prop := match_leb x y = true.

#[global] Instance match_le_dec : RelDecision match_le.
Proof. intros x y. unfold match_le. apply _. Defined.

(** The [while queue:] loop of [get_matching_blocks]; the queue is a stack
    whose top is the head of the list. *)
Fixpoint match_regions (s : SequenceMatcher) (bound : nat)
    (queue : list (Z * Z * Z * Z)) (matching_blocks : list Match)
    : result (list Match) :=
  match queue with
  | [] => Ok matching_blocks
  | (alo, ahi, blo, bhi) :: queue =>
      match bound with
      | O => Unfinished
      | S bound' =>
          x <- find_longest_match s alo ahi blo bhi ;;
          let '(mkMatch i j k) := x in
          if negb (k =? 0) then
            let matching_blocks := matching_blocks ++ [x] in
            let queue :=
              if (alo <? i) && (blo <? j) then (alo, i, blo, j) :: queue
              else queue in
            let queue :=
              if (i + k <? ahi) && (j + k <? bhi) then (i + k, ahi, j + k, bhi) :: queue
              else queue in
            match_regions s bound' queue matching_blocks
          else match_regions s bound' queue matching_blocks
      end
  end.

(** The loop that merges adjacent blocks. *)
Definition collapse_step (st : Z * Z * Z * list Match) (m2 : Match)
    : Z * Z * Z * list Match :=
  let '(i1, j1, k1, non_adjacent) := st in
  let '(mkMatch i2 j2 k2) := m2 in
  if (i1 + k1 =? i2) && (j1 + k1 =? j2) then (i1, j1, k1 + k2, non_adjacent)
  else
    (i2, j2, k2,
     if negb (k1 =? 0) then non_adjacent ++ [mkMatch i1 j1 k1] else non_adjacent).

Definition collapse (matching_blocks : list Match) : list Match :=
  let '(i1, j1, k1, non_adjacent) :=
    fold_left collapse_step matching_blocks (0, 0, 0, []) in
  if negb (k1 =? 0) then non_adjacent ++ [mkMatch i1 j1 k1] else non_adjacent.

(** [get_matching_blocks()]; each pass of the loop takes one region off the
    queue, and there are never more than [2 * len(a) + 1] passes. *)
Definition get_matching_blocks (s : SequenceMatcher) : result (list Match) :=
  let la := Z.of_nat (length (a s)) in
  let lb := Z.of_nat (length (b s)) in
  matching_blocks <- match_regions s (S (2 * length (a s))) [(0, la, 0, lb)] [] ;;
  let matching_blocks := merge_sort match_le matching_blocks in
  Ok (collapse matching_blocks ++ [mkMatch la lb 0]).

Definition calculate_ratio (matches length : Z) : Q :=
  if negb (length =? 0) then (2 * matches) # (Z.to_pos length)
  else 1%Q.

(** [sum(triple[-1] for triple in blocks)] *)
Definition sum_sizes (blocks : list Match) : Z :=
  fold_left (fun acc m => acc + m_size m) blocks 0.

Definition total_length (s : SequenceMatcher) : Z :=
  Z.of_nat (length (a s)) + Z.of_nat (length (b s)).

(** [ratio()] *)
Definition ratio (s : SequenceMatcher) : result Q :=
  blocks <- get_matching_blocks s ;;
  Ok (calculate_ratio (sum_sizes blocks) (total_length s)).

(** [fullbcount]: how many times each element occurs in [b]. *)
Definition fullbcount (b : list ascii) : gmap ascii Z :=
  fold_left
    (fun (fc : gmap ascii Z) elt => <[elt := default 0 (fc !! elt) + 1]> fc)
    b ∅.

Definition quick_step (fc : gmap ascii Z) (st : gmap ascii Z * Z) (elt : ascii)
    : gmap ascii Z * Z :=
  let (avail, matches) := st in
  let numb :=
    match avail !! elt with
    | Some n => n
    | None => default 0 (fc !! elt)
    end in
  (<[elt := numb - 1]> avail, if 0 <? numb then matches + 1 else matches).

(** [quick_ratio()] *)
Definition quick_ratio (s : SequenceMatcher) : Q :=
  let fc := fullbcount (b s) in
  let '(_, matches) := fold_left (quick_step fc) (a s) (∅, 0) in
  calculate_ratio matches (total_length s).

(** [real_quick_ratio()] *)
Definition real_quick_ratio (s : SequenceMatcher) : Q :=
  let la := Z.of_nat (length (a s)) in
  let lb := Z.of_nat (length (b s)) in
  calculate_ratio (Z.min la lb) (la + lb).

(** The loop [for x in possibilities] of [get_close_matches]. *)
Fixpoint scan_possibilities (s : SequenceMatcher) (cutoff : Q)
    (possibilities : list string) (result_ : list (Q * string))
    : result (list (Q * string)) :=
  match possibilities with
  | [] => Ok result_
  | x :: rest =>
      let s := set_seq1 s (list_ascii_of_string x) in
      if Qle_bool cutoff (real_quick_ratio s) && Qle_bool cutoff (quick_ratio s) then
        r <- ratio s ;;
        if Qle_bool cutoff r then
          scan_possibilities s cutoff rest (result_ ++ [(r, x)])
        else scan_possibilities s cutoff rest result_
      else scan_possibilities s cutoff rest result_
  end.

(** [get_close_matches(word, possibilities, n, cutoff)]; the two messages
    are given without the formatted argument. *)
Definition get_close_matches (word : string) (possibilities : list string)
    (n : Z) (cutoff : Q) : result (list string) :=
  if negb (0 <? n) then Raise (ValueError "n must be > 0")
  else if negb (Qle_bool 0 cutoff && Qle_bool cutoff 1) then
    Raise (ValueError "cutoff must be in [0.0, 1.0]")
  else
    let s := set_seq2 new_matcher (list_ascii_of_string word) in
    result_ <- scan_possibilities s cutoff possibilities [] ;;
    let result_ := Heapq.nlargest Heapq.tuple_gt n result_ in
    Ok (map snd result_).

End Difflib.

(** ** Python dictionaries from [str] to [str]

    Entries are kept in insertion order, which is the order [keys()] and
    [items()] iterate in; a key occurs once. *)

Module Dict.

Abbreviation t := (list (string * string)).

Fixpoint get (d : t) (k : string) : option string :=
  match d with
  | [] => None
  | (k', v) :: d' => if String.eqb k' k then Some v else get d' k
  end.

(** [k in d] *)
Definition contains (d : t) (k : string) : bool :=
  match get d k with
  | Some _ => true
  | None => false
  end.

(** [d[k]] *)
Definition getitem (d : t) (k : string) : result string :=
  match get d k with
  | Some v => Ok v
  | None => Raise (KeyError k)
  end.

(** [d[k] = v]: an existing key keeps its place. *)
Fixpoint set (d : t) (k v : string) : t :=
  match d with
  | [] => [(k, v)]
  | (k', v') :: d' =>
      if String.eqb k' k then (k', v) :: d' else (k', v') :: set d' k v
  end.

Definition keys (d : t) : list string := map fst d.
Definition values (d : t) : list string := map snd d.
Definition items (d : t) : list (string * string) := d.

End Dict.

(** ** DICTIONARIES *)

Definition district_renames : Dict.t :=
  [ ("Cuddapah", "Ysr Kadapa");
    ("Allahabad", "Prayagraj");
    ("Faizabad", "Ayodhya");
    ("Bardhaman", "Purba Bardhaman");
    ("Hugli", "Hooghly") ].

Definition state_corrections : Dict.t :=
  [ ("WESTBENGAL", "West Bengal");
    ("Orissa", "Odisha");
    ("andhra pradesh", "Andhra Pradesh");
    ("Uttaranchal", "Uttarakhand") ].

(** [{normalize(k): v for k, v in seed.items()}]; every [k] is a [str], for
    which [normalize] returns the normalised text (see [normalize_Text]). *)
Definition normalized_dict (seed : Dict.t) : Dict.t :=
  fold_left (fun d kv => Dict.set d (normalize_text (fst kv)) (snd kv))
            (Dict.items seed) [].

Definition district_map : Dict.t := normalized_dict district_renames.
Definition state_map : Dict.t := normalized_dict state_corrections.

(** ** [fuzzy_correct] *)

Definition default_cutoff : Q := 17 # 20.

(** [fuzzy_correct(value, mapping, cutoff)].  A [None] key cannot arise after
    the missing-value test; were it to, [get_close_matches] would fail on it. *)
Definition fuzzy_correct (value_ : value) (mapping : Dict.t) (cutoff : Q)
    : result value :=
  if isna value_ then Ok value_
  else
    match normalize value_ with
    | None => Raise TypeError
    | Some key =>
        if Dict.contains mapping key then
          v <- Dict.getitem mapping key ;; Ok (Text v)
        else
          matches <- Difflib.get_close_matches key (Dict.keys mapping) 1 cutoff ;;
          match matches with
          | m0 :: _ => v <- Dict.getitem mapping m0 ;; Ok (Text v)
          | [] => Ok value_
          end
    end.

(** The specification's [correct(value, dictionary)]: the default cutoff. *)
Definition correct (value_ : value) (dictionary : Dict.t) : result value :=
  fuzzy_correct value_ dictionary default_cutoff.

(** ** CLEAN FILE *)

(** A column label: text, or another scalar (an integer, a float, a
    timestamp, ...), which is what [read_excel] returns for a header cell
    that holds no text. *)
Inductive label : Type :=
  | Name (s : string)
  | Key (repr : string).

(** Equality of labels.  The program looks a label up only after the scan
    of COLUMN CHECK has found every label to be text. *)
Definition label_eqb (a b : label) : bool :=
  match a, b with
  | Name s, Name t => String.eqb s t
  | Key r, Key q => String.eqb r q
  | _, _ => false
  end.

(** [str(c)] *)
Definition label_str (c : label) : string :=
  match c with
  | Name s => s
  | Key repr => repr
  end.

(** [c.lower()]: only a [str] has the method. *)
Definition label_lower (c : label) : result string :=
  match c with
  | Name s => Ok (Str.lower s)
  | Key _ => Raise AttributeError
  end.

(** A pandas table: its columns in order, each a label and the cells of its
    rows.  The labels are pairwise distinct, as the pandas readers produce
    them from a header row. *)
Abbreviation DataFrame := (list (label * list value)).

Module Frame.

Definition columns (df : DataFrame) : list label := map fst df.

(** [df[col]] *)
Fixpoint getitem (df : DataFrame) (col : label) : result (list value) :=
  match df with
  | [] => Raise (KeyError (label_str col))
  | (c, cells) :: df' => if label_eqb c col then Ok cells else getitem df' col
  end.

(** [df[col] = cells] for a label that is present. *)
Definition setitem (df : DataFrame) (col : label) (cells : list value) : DataFrame :=
  map (fun column : label * list value =>
         if label_eqb (fst column) col then (fst column, cells) else column) df.

(** [series.apply(f)] *)
Fixpoint apply (f : value -> result value) (series : list value)
    : result (list value) :=
  match series with
  | [] => Ok []
  | x :: rest =>
      y <- f x ;;
      ys <- apply f rest ;;
      Ok (y :: ys)
  end.

End Frame.

(** [[c for c in columns if word in c.lower()]]: the labels are visited in
    column order, and the first that has no [lower] ends the scan. *)
Fixpoint select (word : string) (cols : list label) : result (list label) :=
  match cols with
  | [] => Ok []
  | c :: rest =>
      lowered <- label_lower c ;;
      kept <- select word rest ;;
      Ok (if Str.contains word lowered then c :: kept else kept)
  end.

(** [[c for c in df.columns if word in c.lower()]] *)
Definition matching_columns (word : string) (df : DataFrame) : result (list label) :=
  select word (Frame.columns df).

(** The part of [clean_file] between reading and writing: COLUMN CHECK and
    CLEAN. *)
Definition clean_table (df : DataFrame) : result DataFrame :=
  state_cols <- matching_columns "state" df ;;
  district_cols <- matching_columns "district" df ;;
  match state_cols with
  | [] => Raise (ValueError "State column not found")
  | state_col :: _ =>
      match district_cols with
      | [] => Raise (ValueError "District column not found")
      | district_col :: _ =>
          series <- Frame.getitem df state_col ;;
          cleaned <- Frame.apply (fun x => fuzzy_correct x state_map default_cutoff) series ;;
          let df := Frame.setitem df state_col cleaned in
          series <- Frame.getitem df district_col ;;
          cleaned <- Frame.apply (fun x => fuzzy_correct x district_map default_cutoff) series ;;
          let df := Frame.setitem df district_col cleaned in
          Ok df
      end
  end.

(** A call into pandas' input: it raises or it returns. *)
Definition call {A : Type} (r : exn + A) : result A :=
  match r with
  | inl e => Raise e
  | inr x => Ok x
  end.

(** A call that is handed a path to write to: it returns after storing some
    content under the path, or it raises, and then it has either left the
    path alone or left some content under it (a file it created and did
    not finish, say). *)
Inductive written (content : Type) : Type :=
  | Stored (c : content)
  | Failed (e : exn) (left_behind : option content).
Arguments Stored {content} c.
Arguments Failed {content} e left_behind.

(** What such a call returns, and the files after it. *)
Definition commit {content : Type} (path : string) (w : written content)
    (fs : gmap string content) : result unit * gmap string content :=
  match w with
  | Stored c => (Ok tt, <[path := c]> fs)
  | Failed e (Some c) => (Raise e, <[path := c]> fs)
  | Failed e None => (Raise e, fs)
  end.

Section CleanFile.
(** The pandas readers and writers are outside the program: a file holds
    some [content], a reader parses it into a table or raises, and a
    writer is a call that writes to the path it is given. *)
Context {content : Type}.
Variables read_csv read_excel : content -> exn + DataFrame.
Variables to_csv to_excel : DataFrame -> written content.

Abbreviation disk := (gmap string content).

Definition read (parse : content -> exn + DataFrame) (fs : disk)
    (path : string) : result DataFrame :=
  match fs !! path with
  | Some c => call (parse c)
  | None => Raise IOError
  end.

(** READ *)
Definition load (fs : disk) (input_path : string) : result DataFrame :=
  if Str.endswith input_path ".csv" then read read_csv fs input_path
  else read read_excel fs input_path.

(** WRITE SAME FORMAT: the writer that is called, and what it does. *)
Definition serialize (output_path : string) (df : DataFrame) : written content :=
  if Str.endswith output_path ".csv" then to_csv df
  else to_excel df.

(** [clean_file(input_path, output_path)]: the outcome and the files
    afterwards. *)
Definition clean_file (input_path output_path : string) (fs : disk)
    : result unit * disk :=
  match load fs input_path with
  | Ok df =>
      match clean_table df with
      | Ok df => commit output_path (serialize output_path df) fs
      | Raise e => (Raise e, fs)
      | Unfinished => (Unfinished, fs)
      end
  | Raise e => (Raise e, fs)
  | Unfinished => (Unfinished, fs)
  end.
End CleanFile.

(** ** More [str] methods and [os.path.join] *)

Module StrMore.

(** [s.startswith(prefix)] *)
Definition startswith (s prefix : string) : bool := String.prefix prefix s.

(** The split point of [s.rsplit(sep, 1)] for a one-character separator: the
    text before and the text after the last occurrence of [sep]. *)
Fixpoint rpartition (sep : ascii) (s : string) : option (string * string) :=
  match s with
  | EmptyString => None
  | String c s' =>
      match rpartition sep s' with
      | Some (before, after) => Some (String c before, after)
      | None => if Ascii.eqb c sep then Some (EmptyString, s') else None
      end
  end.

(** [s.rsplit(sep, 1)] *)
Definition rsplit1 (sep : ascii) (s : string) : list string :=
  match rpartition sep s with
  | Some (before, after) => [before; after]
  | None => [s]
  end.

End StrMore.

Module OsPath.

(** [os.path.join(a, b)] with two arguments, as [posixpath] defines it. *)
Definition join (a b : string) : string :=
  if StrMore.startswith b "/" then b
  else if String.eqb a EmptyString || Str.endswith a "/" then (a ++ b)%string
  else (a ++ "/" ++ b)%string.

End OsPath.

(** ** Configuration and [allowed_file] *)

Definition UPLOAD_FOLDER : string := "uploads".
Definition OUTPUT_FOLDER : string := "outputs".
Definition ALLOWED_EXTENSIONS : gset string := {[ "csv"; "xlsx"; "xls" ]}.

(** [allowed_file(filename)]; the index [[1]] is only evaluated when the
    name contains a dot. *)
Definition allowed_file (filename : string) : result bool :=
  if Str.contains "." filename then
    ext <- Difflib.index (StrMore.rsplit1 "." filename) 1 ;;
    Ok (bool_decide (Str.lower ext ∈ ALLOWED_EXTENSIONS))
  else Ok false.

(** ** ROUTES *)

(** An uploaded file of [request.files]: its client-side name and its body. *)
Record FileStorage (content : Type) : Type := mkFileStorage {
  filename : string;
  stream : content
}.
Arguments mkFileStorage {content} filename stream.
Arguments filename {content} f.
Arguments stream {content} f.

(** An error text as the routes build it: the cross-mark emoji (U+274C), a
    space, and [text]. *)
Inductive message : Type :=
  | Cross (text : string).

(** What a route returns: the upload page, with or without an error, or a
    file sent as an attachment. *)
Inductive response : Type :=
  | RenderUpload (error : option message)
  | SendFile (path : string).

(** The two [except] clauses of [clean]. *)
Definition error_page (e : exn) : response :=
  match e with
  | ValueError msg => RenderUpload (Some (Cross msg))
  | _ => RenderUpload
           (Some (Cross "Error while processing file. Check format and columns."))
  end.

(** [home()] *)
Definition home : response := RenderUpload None.

Section Routes.
(** [FileStorage.save] is outside the program, like the pandas readers and
    writers: a call that writes the body to the path it is given. *)
Context {content : Type}.
Variables read_csv read_excel : content -> exn + DataFrame.
Variables to_csv to_excel : DataFrame -> written content.
Variable save : string -> content -> written content.

(** [send_file(path, as_attachment=True)]: the file is looked up where
    [clean_file] wrote it, the application running from its own directory;
    a path that holds no file raises. *)
Definition send_file (fs : gmap string content) (path : string) : result response :=
  match fs !! path with
  | Some _ => Ok (SendFile path)
  | None => Raise IOError
  end.

(** The [try] block of [clean]: every exception ends in an error page. *)
Definition clean_upload (file : FileStorage content) (input_path output_path : string)
    (fs : gmap string content) : result response * gmap string content :=
  match commit input_path (save input_path (stream file)) fs with
  | (Raise e, fs) => (Ok (error_page e), fs)
  | (Unfinished, fs) => (Unfinished, fs)
  | (Ok _, fs) =>
      match clean_file read_csv read_excel to_csv to_excel input_path output_path fs with
      | (Ok _, fs) =>
          match send_file fs output_path with
          | Ok r => (Ok r, fs)
          | Raise e => (Ok (error_page e), fs)
          | Unfinished => (Unfinished, fs)
          end
      | (Raise e, fs) => (Ok (error_page e), fs)
      | (Unfinished, fs) => (Unfinished, fs)
      end
  end.

(** [clean()]: [files] is [request.files] and [uid] the value drawn by
    [uuid.uuid4().hex]. *)
Definition clean (files : gmap string (FileStorage content)) (uid : string)
    (fs : gmap string content) : result response * gmap string content :=
  match files !! "file" with
  | None => (Ok (RenderUpload (Some (Cross "Please upload a file"))), fs)
  | Some file =>
      if String.eqb (filename file) EmptyString then
        (Ok (RenderUpload (Some (Cross "No file selected"))), fs)
      else
        match allowed_file (filename file) with
        | Ok false =>
            (Ok (RenderUpload (Some (Cross "Only CSV and Excel files are allowed"))), fs)
        | Ok true =>
            let input_path :=
              OsPath.join UPLOAD_FOLDER (uid ++ "_" ++ filename file)%string in
            let output_path :=
              OsPath.join OUTPUT_FOLDER ("cleaned_" ++ uid ++ "_" ++ filename file)%string in
            clean_upload file input_path output_path fs
        | Raise e => (Raise e, fs)
        | Unfinished => (Unfinished, fs)
        end
  end.
End Routes.

(** * Specification-level definitions *)

(** ** Specification predicates for [difflib] *)

Module DifflibSpec.
Import Difflib.

(** Every position recorded for [c] in [b2j] holds [c] in [b]. *)
Definition b2j_sound (s : SequenceMatcher) : Prop :=
  forall c js j, b2j s !! c = Some js -> j ∈ js ->
    0 <= j /\ b s !! Z.to_nat j = Some c.

(** [a[i:i+k]] and [b[j:j+k]] exist and are equal. *)
Definition agree (s : SequenceMatcher) (i j k : Z) : Prop :=
  forall t, 0 <= t < k ->
    exists c, a s !! Z.to_nat (i + t) = Some c /\ b s !! Z.to_nat (j + t) = Some c.

(** A region [a[alo:ahi]], [b[blo:bhi]] of the two sequences. *)
Definition region_ok (s : SequenceMatcher) (r : Z * Z * Z * Z) : Prop :=
  let '(alo, ahi, blo, bhi) := r in
  (0 <= alo /\ alo <= ahi /\ ahi <= Z.of_nat (length (a s))) /\
  (0 <= blo /\ blo <= bhi /\ bhi <= Z.of_nat (length (b s))).

(** A block that lies inside a region and matches. *)
Definition block_in (s : SequenceMatcher) (r : Z * Z * Z * Z) (bst : best) : Prop :=
  let '(alo, ahi, blo, bhi) := r in
  let '(i, j, k) := bst in
  alo <= i /\ blo <= j /\ 0 <= k /\ i + k <= ahi /\ j + k <= bhi /\ agree s i j k.

(** What [j2len] holds when row [i] is about to be scanned: matches that end
    at [a[i-1]] and [b[j]]. *)
Definition row_ok (s : SequenceMatcher) (r : Z * Z * Z * Z) (i : Z)
    (j2len : gmap Z Z) : Prop :=
  let '(alo, ahi, blo, bhi) := r in
  forall j k, j2len !! j = Some k ->
    1 <= k /\ alo <= i - k /\ blo <= j - k + 1 /\ j < bhi /\
    agree s (i - k) (j - k + 1) k.

End DifflibSpec.

Module RegionSpec.
Import Difflib.

(** [l[lo:hi]] for [0 <= lo <= hi <= len(l)]. *)
Definition slice {A : Type} (l : list A) (lo hi : Z) : list A :=
  take (Z.to_nat (hi - lo)) (drop (Z.to_nat lo) l).

(** The number of elements two sequences have in common, counted with
    multiplicity. *)
Definition common (x y : list ascii) : nat :=
  size ((list_to_set_disj x : gmultiset ascii) ∩ list_to_set_disj y).

Definition region_common (s : SequenceMatcher) (r : Z * Z * Z * Z) : Z :=
  let '(alo, ahi, blo, bhi) := r in
  Z.of_nat (common (slice (a s) alo ahi) (slice (b s) blo bhi)).

(** The measure that bounds the passes of the region loop. *)
Definition region_weight (r : Z * Z * Z * Z) : Z :=
  let '(alo, ahi, _, _) := r in 2 * (ahi - alo) + 1.

Definition Zsum {A : Type} (f : A -> Z) (l : list A) : Z :=
  foldr (fun x acc => f x + acc) 0 l.

(** What [avail] and [fullbcount] say is left of [c]. *)
Definition remaining (fc avail : gmap ascii Z) (c : ascii) : Z :=
  match avail !! c with
  | Some n => n
  | None => default 0 (fc !! c)
  end.

End RegionSpec.

Module MatchSpec.
Import Difflib.

(** The matcher [get_close_matches] compares [x] with [word] on. *)
Definition matcher_for (word x : string) : SequenceMatcher :=
  set_seq1 (set_seq2 new_matcher (list_ascii_of_string word)) (list_ascii_of_string x).

(** The sequence-similarity ratio of a possibility [x] to [word]. *)
Definition similarity (word x : string) : Q :=
  match ratio (matcher_for word x) with
  | Ok r => r
  | _ => 0%Q
  end.

(** The possibilities that reach the cutoff, with their scores. *)
Definition candidates (word : string) (cutoff : Q) (possibilities : list string)
    : list (Q * string) :=
  map (fun x => (similarity word x, x))
      (List.filter (fun x => Qle_bool cutoff (similarity word x)) possibilities).

End MatchSpec.

(** ** Specification-level definitions for tables *)

Module FrameSpec.

(** Whether a label is text, and whether it matches a word of the column
    check. *)
Definition is_text (c : label) : bool :=
  match c with
  | Name _ => true
  | Key _ => false
  end.

Definition label_matches (word : string) (c : label) : bool :=
  match c with
  | Name s => Str.contains word (Str.lower s)
  | Key _ => false
  end.

End FrameSpec.

(** ** Sample tables *)

Module Samples.

(** The end-to-end example of the specification. *)
Definition table : DataFrame :=
  [ (Name "State", [Text "WESTBENGAL"; Text "Orissa"]);
    (Name "District", [Text "Hugli"; Text "Cuddapah"]) ].

Definition cleaned : DataFrame :=
  [ (Name "State", [Text "West Bengal"; Text "Odisha"]);
    (Name "District", [Text "Hooghly"; Text "Ysr Kadapa"]) ].

(** A table with neither a state nor a district column. *)
Definition population_only : DataFrame := [ (Name "Population", [Scalar "1200"]) ].

(** A table with a state column and no district column. *)
Definition state_only : DataFrame :=
  [ (Name "State", [Text "Orissa"]); (Name "Population", [Scalar "1200"]) ].

(** A sheet whose first header cell holds the number 2020. *)
Definition numbered : DataFrame :=
  [ (Key "2020", [Scalar "31"]); (Name "State", [Text "Orissa"]);
    (Name "District", [Text "Hugli"]) ].

(** Files that hold tables as they are: reading and writing change nothing. *)
Definition parse (c : DataFrame) : exn + DataFrame := inr c.
Definition print (df : DataFrame) : written DataFrame := Stored df.

(** A writer that creates the file and fails before it has written a row. *)
Definition interrupted (df : DataFrame) : written DataFrame :=
  Failed IOError (Some []).

Definition files (df : DataFrame) : gmap string DataFrame := {[ "in.csv" := df ]}.

Definition run (df : DataFrame) : result unit * gmap string DataFrame :=
  clean_file parse parse print print "in.csv" "out.csv" (files df).

End Samples.

(** ** Specification-level definitions for the routes *)

Module RouteSpec.

(** The characters of a string. *)
Definition chars (s : string) : list ascii := list_ascii_of_string s.

(** A character of [uuid.uuid4().hex]. *)
Definition ishex (c : ascii) : bool :=
  let n := Str.ord c in (Str.between 48 57 n || Str.between 97 102 n)%N.

(** The paths [clean] builds for an upload named [name]. *)
Definition input_path_of (uid name : string) : string :=
  ("uploads/" ++ uid ++ "_" ++ name)%string.
Definition output_path_of (uid name : string) : string :=
  ("outputs/cleaned_" ++ uid ++ "_" ++ name)%string.

End RouteSpec.

Module MoreSamples.

(** One column that is both the state and the district column. *)
Definition merged : DataFrame :=
  [ (Name "State / District", [Text "Orissa"; Text " hugli"; NaN; Text "Goa"]) ].

(** A spreadsheet reader given something that is no workbook. *)
Definition refuse (c : DataFrame) : exn + DataFrame :=
  inl (ValueError "Excel file format cannot be determined").

(** A [save] that always stores the body. *)
Definition store (path : string) (body : DataFrame) : written DataFrame :=
  Stored body.

(** The form data of a request that uploads [body] under [name]. *)
Definition upload (name : string) (body : DataFrame)
    : gmap string (FileStorage DataFrame) :=
  {[ "file" := mkFileStorage name body ]}.

Definition serve (name : string) (body : DataFrame)
    : result response * gmap string DataFrame :=
  clean Samples.parse refuse Samples.print Samples.print store
        (upload name body) "0f" ∅.

End MoreSamples.

(** * Facts about the embedded library code *)

Module StrFacts.

Lemma re_sub_keep s :
  Str.re_sub_class Str.not_word_space EmptyString s
  = Str.keep (fun c => Str.isword c || Str.isspace c) s.
Proof.
  induction s as [|c s IH]; simpl; [done|].
  unfold Str.not_word_space at 1.
  destruct (Str.isword c || Str.isspace c); simpl; by rewrite IH.
Qed.

Lemma keep_all p s : Str.all p (Str.keep p s) = true.
Proof.
  induction s as [|c s IH]; simpl; [done|].
  destruct (p c) eqn:E; simpl; [|done]. by rewrite E.
Qed.

(** [lstrip] drops a prefix of whitespace and stops at the first character
    that is not whitespace. *)
Lemma lstrip_decompose s :
  exists before, s = (before ++ Str.lstrip s)%string /\
                 Str.all Str.isspace before = true.
Proof.
  induction s as [|c s (before & IH & Hb)]; simpl.
  - by exists EmptyString.
  - destruct (Str.isspace c) eqn:E.
    + exists (String c before). split; [exact (f_equal (String c) IH)|].
      simpl. by rewrite E, Hb.
    + by exists EmptyString.
Qed.

Lemma lstrip_first s c t : Str.lstrip s = String c t -> Str.isspace c = false.
Proof.
  induction s as [|c' s IH]; simpl; [done|].
  destruct (Str.isspace c') eqn:E; [done|]. by intros [= <- _].
Qed.

(** [rstrip] drops a suffix of whitespace. *)
Lemma rstrip_decompose s :
  exists after, s = (Str.rstrip s ++ after)%string /\
                Str.all Str.isspace after = true.
Proof.
  induction s as [|c s (after & IH & Ha)]; simpl.
  - by exists EmptyString.
  - destruct (Str.rstrip s) as [|c' r] eqn:E.
    + simpl in IH. subst s. destruct (Str.isspace c) eqn:Ec.
      * exists (String c after). simpl. by rewrite Ec, Ha.
      * by exists after.
    + exists after. split; [exact (f_equal (String c) IH)|done].
Qed.

Lemma rstrip_first c s t :
  Str.isspace c = false -> Str.rstrip (String c s) = String c t ->
  t = Str.rstrip s.
Proof.
  simpl. intros Hc. destruct (Str.rstrip s); rewrite ?Hc; by intros [= <-].
Qed.

Lemma rstrip_last s : forall t c,
  Str.rstrip s = (t ++ String c EmptyString)%string -> Str.isspace c = false.
Proof.
  induction s as [|c' s IH]; intros t c; simpl.
  - by destruct t.
  - destruct (Str.rstrip s) as [|c'' r] eqn:E.
    + destruct (Str.isspace c') eqn:Ec; [by destruct t|].
      destruct t as [|? [|? ?]]; simpl; intros [= <-]; done.
    + destruct t as [|c0 t]; simpl; [done|].
      intros [= <- Ht]. by apply (IH t c).
Qed.

(** [strip]: the text between the leading and the trailing whitespace. *)
Lemma strip_decompose s :
  exists before after,
    s = (before ++ Str.strip s ++ after)%string /\
    Str.all Str.isspace before = true /\ Str.all Str.isspace after = true.
Proof.
  destruct (lstrip_decompose s) as (before & Hs & Hb).
  destruct (rstrip_decompose (Str.lstrip s)) as (after & Hl & Ha).
  exists before, after. unfold Str.strip. by rewrite <- Hl.
Qed.

Lemma strip_first s c t : Str.strip s = String c t -> Str.isspace c = false.
Proof.
  unfold Str.strip. destruct (Str.lstrip s) as [|c' l] eqn:E; [done|].
  pose proof (lstrip_first _ _ _ E) as Hc'. simpl.
  destruct (Str.rstrip l); rewrite ?Hc'; by intros [= <- _].
Qed.

Lemma strip_last s t c :
  Str.strip s = (t ++ String c EmptyString)%string -> Str.isspace c = false.
Proof. apply rstrip_last. Qed.

End StrFacts.

Module DifflibFacts.
Import Difflib DifflibSpec.

Lemma index_in_range {A : Type} (l : list A) (i : Z) :
  0 <= i < Z.of_nat (length l) ->
  exists x, index l i = Ok x /\ l !! Z.to_nat i = Some x.
Proof.
  intros Hi. unfold index, getitem.
  destruct (Z.ltb_spec i 0) as [?|_]; [lia|].
  destruct (Z.ltb_spec i 0) as [?|_]; [lia|].
  destruct (lookup_lt_is_Some_2 l (Z.to_nat i)) as [x Hx]; [lia|].
  exists x. by rewrite Hx.
Qed.

Lemma agree_extend_right s i j k c :
  0 <= k -> agree s i j k ->
  a s !! Z.to_nat (i + k) = Some c -> b s !! Z.to_nat (j + k) = Some c ->
  agree s i j (k + 1).
Proof.
  intros Hk Hag Ha Hb t Ht.
  destruct (decide (t = k)) as [->|Hne]; [eauto|].
  apply Hag. lia.
Qed.

Lemma agree_extend_left s i j k c :
  0 <= k -> agree s i j k ->
  a s !! Z.to_nat (i - 1) = Some c -> b s !! Z.to_nat (j - 1) = Some c ->
  agree s (i - 1) (j - 1) (k + 1).
Proof.
  intros Hk Hag Ha Hb t Ht.
  destruct (decide (t = 0)) as [->|Hne].
  - exists c. by rewrite !Z.add_0_r.
  - destruct (Hag (t - 1)) as (c' & H1 & H2); [lia|].
    exists c'. replace (i - 1 + t) with (i + (t - 1)) by lia.
    replace (j - 1 + t) with (j + (t - 1)) by lia. done.
Qed.

Lemma agree_nil s i j : agree s i j 0.
Proof. intros t Ht. lia. Qed.

Section FindLongestMatch.
Variable s : SequenceMatcher.
Variables alo ahi blo bhi : Z.
Hypothesis Hsound : b2j_sound s.
Hypothesis Hreg : region_ok s (alo, ahi, blo, bhi).

Let r : Z * Z * Z * Z := (alo, ahi, blo, bhi).

Lemma scan_row_ok i ai j2len js :
  alo <= i < ahi ->
  a s !! Z.to_nat i = Some ai ->
  (forall j, j ∈ js -> 0 <= j /\ b s !! Z.to_nat j = Some ai) ->
  row_ok s r i j2len ->
  forall newj2len bst,
    row_ok s r (i + 1) newj2len -> block_in s r bst ->
    row_ok s r (i + 1) (fst (scan_row blo bhi i j2len js newj2len bst)) /\
    block_in s r (snd (scan_row blo bhi i j2len js newj2len bst)).
Proof.
  intros Hi Hai Hjs Hrow.
  induction js as [|j js IH]; intros newj2len bst Hnew Hbst; simpl; [done|].
  assert (Hjs' : forall j', j' ∈ js -> 0 <= j' /\ b s !! Z.to_nat j' = Some ai).
  { intros j' Hj'. apply Hjs. by right. }
  destruct (Hjs j) as [Hj0 Hbj]; [by left|].
  destruct (Z.ltb_spec j blo) as [Hlo|Hlo]; [by apply IH|].
  destruct (Z.leb_spec bhi j) as [Hhi|Hhi]; [done|].
  set (k := default 0 (j2len !! (j - 1)) + 1).
  assert (Hk : 1 <= k /\ alo <= i + 1 - k /\ blo <= j - k + 1 /\
               agree s (i + 1 - k) (j - k + 1) k).
  { subst k. destruct (j2len !! (j - 1)) as [k0|] eqn:Hk0; simpl.
    - destruct (Hrow _ _ Hk0) as (H1 & H2 & H3 & H4 & H5).
      repeat split; try lia.
      replace (i + 1 - (k0 + 1)) with (i - k0) by lia.
      replace (j - (k0 + 1) + 1) with (j - 1 - k0 + 1) by lia.
      apply agree_extend_right with ai; [lia|done|..].
      + by replace (i - k0 + k0) with i by lia.
      + by replace (j - 1 - k0 + 1 + k0) with j by lia.
    - repeat split; try lia.
      intros t Ht. assert (t = 0) as -> by lia.
      exists ai. split; [rewrite <- Hai|rewrite <- Hbj]; f_equal; lia. }
  destruct Hk as (Hk1 & Hk2 & Hk3 & Hk4).
  apply IH; [done|..].
  - intros j' k' Hlk. destruct (decide (j = j')) as [<-|Hne].
    + rewrite lookup_insert_eq in Hlk. injection Hlk as <-.
      repeat split; try lia; done.
    + rewrite lookup_insert_ne in Hlk by done. by apply Hnew.
  - destruct bst as [[besti bestj] bestsize].
    destruct (Z.ltb_spec bestsize k); [|done].
    simpl. replace (i - k + 1) with (i + 1 - k) by lia.
    repeat split; try lia; done.
Qed.

Lemma scan_rows_ok n : forall i j2len bst,
  alo <= i -> i + Z.of_nat n <= ahi ->
  row_ok s r i j2len -> block_in s r bst ->
  exists bst', scan_rows s blo bhi (seqZ i (Z.of_nat n)) j2len bst = Ok bst' /\
               block_in s r bst'.
Proof.
  destruct Hreg as [(Ha0 & Ha1 & Ha2) (Hb0 & Hb1 & Hb2)].
  induction n as [|n IH]; intros i j2len bst Hi Hn Hrow Hbst.
  - simpl. eauto.
  - rewrite seqZ_cons by lia. simpl.
    destruct (index_in_range (a s) i) as (ai & -> & Hai); [lia|]. simpl.
    assert (Hjs : forall j, j ∈ default [] (b2j s !! ai) ->
                            0 <= j /\ b s !! Z.to_nat j = Some ai).
    { intros j Hj. destruct (b2j s !! ai) as [js|] eqn:Hl; simpl in Hj.
      - by apply (Hsound ai js).
      - by apply elem_of_nil in Hj. }
    destruct (scan_row_ok i ai j2len _ ltac:(lia) Hai Hjs Hrow ∅ bst) as [H1 H2].
    { intros j k Hl. by rewrite lookup_empty in Hl. }
    { done. }
    destruct (scan_row blo bhi i j2len (default [] (b2j s !! ai)) ∅ bst)
      as [newj2len bst1].
    replace (Z.pred (Z.of_nat (S n))) with (Z.of_nat n) by lia.
    apply IH; try done; lia.
Qed.

Lemma extend_left_ok junk bound : forall bst,
  block_in s r bst -> (left_bound alo bst <= bound)%nat ->
  exists bst', extend_left s alo blo bound junk bst = Ok bst' /\
               block_in s r bst'.
Proof.
  destruct Hreg as [(Ha0 & Ha1 & Ha2) (Hb0 & Hb1 & Hb2)].
  induction bound as [|bound IH]; intros [[i j] k] (H1 & H2 & H3 & H4 & H5 & H6) Hbound;
    simpl in Hbound.
  - simpl. destruct (Z.ltb_spec alo i); [lia|]. simpl. eexists; split; [done|].
    repeat split; done || lia.
  - cbn [extend_left can_extend_left].
    destruct (Z.ltb_spec alo i); simpl;
      [|eexists; split; [done|]; repeat split; done || lia].
    destruct (Z.ltb_spec blo j); simpl;
      [|eexists; split; [done|]; repeat split; done || lia].
    destruct (index_in_range (b s) (j - 1)) as (bj & -> & Hbj); [lia|]. simpl.
    destruct (Bool.eqb (isbjunk s bj) junk); simpl;
      [|eexists; split; [done|]; repeat split; done || lia].
    destruct (index_in_range (a s) (i - 1)) as (ai & -> & Hai); [lia|]. simpl.
    destruct (Ascii.eqb_spec ai bj) as [->|];
      [|eexists; split; [done|]; repeat split; done || lia].
    apply IH; [|simpl; lia].
    repeat split; try lia. by apply agree_extend_left with bj.
Qed.

Lemma extend_right_ok junk bound : forall bst,
  block_in s r bst -> (right_bound ahi bst <= bound)%nat ->
  exists bst', extend_right s ahi bhi bound junk bst = Ok bst' /\
               block_in s r bst'.
Proof.
  destruct Hreg as [(Ha0 & Ha1 & Ha2) (Hb0 & Hb1 & Hb2)].
  induction bound as [|bound IH]; intros [[i j] k] (H1 & H2 & H3 & H4 & H5 & H6) Hbound;
    simpl in Hbound.
  - simpl. destruct (Z.ltb_spec (i + k) ahi); [lia|]. simpl. eexists; split; [done|].
    repeat split; done || lia.
  - cbn [extend_right can_extend_right].
    destruct (Z.ltb_spec (i + k) ahi); simpl;
      [|eexists; split; [done|]; repeat split; done || lia].
    destruct (Z.ltb_spec (j + k) bhi); simpl;
      [|eexists; split; [done|]; repeat split; done || lia].
    destruct (index_in_range (b s) (j + k)) as (bj & -> & Hbj); [lia|]. simpl.
    destruct (Bool.eqb (isbjunk s bj) junk); simpl;
      [|eexists; split; [done|]; repeat split; done || lia].
    destruct (index_in_range (a s) (i + k)) as (ai & -> & Hai); [lia|]. simpl.
    destruct (Ascii.eqb_spec ai bj) as [->|];
      [|eexists; split; [done|]; repeat split; done || lia].
    apply IH; [|simpl; lia].
    repeat split; try lia. by apply agree_extend_right with bj.
Qed.

Lemma find_longest_match_ok :
  exists m, find_longest_match s alo ahi blo bhi = Ok m /\
            block_in s r (m_a m, m_b m, m_size m).
Proof.
  pose proof Hreg as [(Ha0 & Ha1 & Ha2) (Hb0 & Hb1 & Hb2)].
  unfold find_longest_match.
  destruct (scan_rows_ok (Z.to_nat (ahi - alo)) alo ∅ (alo, blo, 0))
    as (b1 & E1 & G1); try lia.
  { intros j k Hl. by rewrite lookup_empty in Hl. }
  { repeat split; try lia. apply agree_nil. }
  rewrite Z2Nat.id in E1 by lia. rewrite E1. simpl.
  destruct (extend_left_ok false _ b1 G1 (le_n _)) as (b2 & -> & G2). simpl.
  destruct (extend_right_ok false _ b2 G2 (le_n _)) as (b3 & -> & G3). simpl.
  destruct (extend_left_ok true _ b3 G3 (le_n _)) as (b4 & -> & G4). simpl.
  destruct (extend_right_ok true _ b4 G4 (le_n _)) as (b5 & -> & G5). simpl.
  destruct b5 as [[i j] k]. eauto.
Qed.
End FindLongestMatch.

End DifflibFacts.

Module RegionFacts.
Import Difflib DifflibSpec RegionSpec DifflibFacts.

Lemma Zsum_app {A : Type} (f : A -> Z) l1 l2 :
  Zsum f (l1 ++ l2) = Zsum f l1 + Zsum f l2.
Proof. induction l1 as [|x l1 IH]; simpl; lia. Qed.

Lemma Zsum_perm {A : Type} (f : A -> Z) l1 l2 :
  l1 ≡ₚ l2 -> Zsum f l1 = Zsum f l2.
Proof. induction 1; simpl; lia. Qed.

Lemma sum_sizes_from blocks : forall acc,
  fold_left (fun acc m => acc + m_size m) blocks acc = acc + Zsum m_size blocks.
Proof.
  induction blocks as [|m blocks IH]; intros acc; simpl; [lia|].
  rewrite IH. lia.
Qed.

Lemma sum_sizes_Zsum blocks : sum_sizes blocks = Zsum m_size blocks.
Proof. unfold sum_sizes. rewrite sum_sizes_from. lia. Qed.

Lemma slice_split {A : Type} (l : list A) lo mid hi :
  0 <= lo -> lo <= mid -> mid <= hi ->
  slice l lo hi = slice l lo mid ++ slice l mid hi.
Proof.
  intros H0 H1 H2. unfold slice.
  replace (Z.to_nat (hi - lo)) with (Z.to_nat (mid - lo) + Z.to_nat (hi - mid))%nat by lia.
  rewrite <- take_take_drop. f_equal. rewrite drop_drop. do 2 f_equal. lia.
Qed.

Lemma slice_length {A : Type} (l : list A) lo hi :
  0 <= lo -> lo <= hi -> hi <= Z.of_nat (length l) ->
  Z.of_nat (length (slice l lo hi)) = hi - lo.
Proof.
  intros. unfold slice. rewrite length_take, length_drop. lia.
Qed.

Lemma slice_lookup {A : Type} (l : list A) lo hi (n : nat) :
  0 <= lo -> Z.of_nat n < hi - lo ->
  slice l lo hi !! n = l !! Z.to_nat (lo + Z.of_nat n).
Proof.
  intros. unfold slice. rewrite lookup_take_lt by lia.
  rewrite lookup_drop. f_equal. lia.
Qed.

Lemma slice_all {A : Type} (l : list A) :
  slice l 0 (Z.of_nat (length l)) = l.
Proof.
  unfold slice. simpl. rewrite Z.sub_0_r, Nat2Z.id. apply firstn_all.
Qed.

Lemma agree_slices s i j k :
  0 <= i -> 0 <= j -> 0 <= k -> agree s i j k ->
  slice (a s) i (i + k) = slice (b s) j (j + k).
Proof.
  intros Hi Hj Hk Hag. apply list_eq. intros n.
  destruct (decide (Z.of_nat n < k)) as [Hn|Hn].
  - rewrite !slice_lookup by lia.
    destruct (Hag (Z.of_nat n)) as (c & -> & ->); [lia|done].
  - unfold slice. rewrite !lookup_take_ge; [done|lia..].
Qed.

Lemma common_blocks (x1 m x3 y1 y3 : list ascii) :
  (common x1 y1 + length m + common x3 y3 <= common (x1 ++ m ++ x3) (y1 ++ m ++ y3))%nat.
Proof.
  unfold common. rewrite !list_to_set_disj_app.
  set (X1 := list_to_set_disj x1 : gmultiset ascii).
  set (Y1 := list_to_set_disj y1 : gmultiset ascii).
  set (X3 := list_to_set_disj x3 : gmultiset ascii).
  set (Y3 := list_to_set_disj y3 : gmultiset ascii).
  set (M := list_to_set_disj m : gmultiset ascii).
  assert (length m = size M) as ->.
  { subst M. clear. induction m as [|c m IH].
    - done.
    - rewrite list_to_set_disj_cons, gmultiset_size_disj_union,
        gmultiset_size_singleton. simpl. lia. }
  rewrite <- !gmultiset_size_disj_union.
  apply gmultiset_subseteq_size. multiset_solver.
Qed.

Section Regions.
Variable s : SequenceMatcher.
Hypothesis Hsound : b2j_sound s.

Lemma region_step alo ahi blo bhi i j k :
  region_ok s (alo, ahi, blo, bhi) ->
  block_in s (alo, ahi, blo, bhi) (i, j, k) ->
  region_common s (alo, i, blo, j) + k + region_common s (i + k, ahi, j + k, bhi)
  <= region_common s (alo, ahi, blo, bhi).
Proof.
  intros [(Ha0 & Ha1 & Ha2) (Hb0 & Hb1 & Hb2)] (H1 & H2 & H3 & H4 & H5 & H6).
  unfold region_common.
  rewrite (slice_split (a s) alo i ahi) by lia.
  rewrite (slice_split (a s) i (i + k) ahi) by lia.
  rewrite (slice_split (b s) blo j bhi) by lia.
  rewrite (slice_split (b s) j (j + k) bhi) by lia.
  rewrite (agree_slices s i j k) by (done || lia).
  pose proof (common_blocks (slice (a s) alo i) (slice (b s) j (j + k))
                (slice (a s) (i + k) ahi) (slice (b s) blo j)
                (slice (b s) (j + k) bhi)) as Hc.
  pose proof (slice_length (b s) j (j + k)) as Hl.
  lia.
Qed.

Lemma region_weight_pos queue :
  Forall (region_ok s) queue -> 0 <= Zsum region_weight queue.
Proof.
  induction 1 as [|[[[alo ahi] blo] bhi] queue [(? & ? & ?) _] _ IH]; simpl; lia.
Qed.

Lemma region_common_pos queue : 0 <= Zsum (region_common s) queue.
Proof.
  induction queue as [|[[[alo ahi] blo] bhi] queue IH]; simpl; lia.
Qed.

Lemma match_regions_ok bound : forall queue acc,
  Forall (region_ok s) queue ->
  Zsum region_weight queue <= Z.of_nat bound ->
  exists blocks, match_regions s bound queue acc = Ok blocks /\
    Zsum m_size blocks <= Zsum m_size acc + Zsum (region_common s) queue.
Proof.
  induction bound as [|bound IH]; intros queue acc Hq Hw.
  - destruct queue as [|[[[alo ahi] blo] bhi] queue]; simpl.
    + exists acc. split; [done|lia].
    + apply Forall_cons in Hq as [[(? & ? & ?) _] Hq].
      apply region_weight_pos in Hq. simpl in Hw. lia.
  - destruct queue as [|[[[alo ahi] blo] bhi] queue].
    { simpl. exists acc. split; [done|lia]. }
    apply Forall_cons in Hq as [Hr Hq].
    pose proof (region_weight_pos queue Hq) as Hwq.
    pose proof (region_common_pos queue) as Hcq.
    destruct (find_longest_match_ok s alo ahi blo bhi Hsound Hr) as ([i j k] & Hm & Hblk).
    pose proof (region_step alo ahi blo bhi i j k Hr Hblk) as Hstep.
    simpl in Hblk. destruct Hblk as (H1 & H2 & H3 & H4 & H5 & H6).
    pose proof Hr as [(Ha0 & Ha1 & Ha2) (Hb0 & Hb1 & Hb2)].
    cbn [match_regions]. rewrite Hm. cbn [bind].
    simpl in Hw, Hstep.
    destruct (Z.eqb_spec k 0) as [->|Hk]; cbn [negb].
    + destruct (IH queue acc Hq) as (blocks & -> & Hb); [lia|].
      exists blocks. split; [done|]. simpl. lia.
    + assert (Hl : region_ok s (alo, i, blo, j)) by (split; lia).
      assert (Hrr : region_ok s (i + k, ahi, j + k, bhi)) by (split; lia).
      pose proof (Nat2Z.is_nonneg (common (slice (a s) alo i) (slice (b s) blo j))).
      pose proof (Nat2Z.is_nonneg
                    (common (slice (a s) (i + k) ahi) (slice (b s) (j + k) bhi))).
      destruct ((alo <? i) && (blo <? j)), ((i + k <? ahi) && (j + k <? bhi));
        match goal with
        | |- context [match_regions s bound ?q ?acc'] =>
            destruct (IH q acc') as (blocks & -> & Hb);
              [repeat apply Forall_cons_2; done | simpl; lia |];
              exists blocks; split; [done|];
              rewrite Zsum_app in Hb; simpl in Hb |- *; lia
        end.
Qed.
End Regions.

End RegionFacts.

Module RatioFacts.
Import Difflib DifflibSpec RegionSpec DifflibFacts RegionFacts.

(** *** Indexing [b] *)

Lemma chain_indices_from (rest : list ascii) : forall (pre : list ascii) (acc : gmap ascii (list Z)),
  (forall c js j, acc !! c = Some js -> j ∈ js ->
     0 <= j /\ (pre ++ rest) !! Z.to_nat j = Some c) ->
  forall c js j,
    fold_left
      (fun (b2j : gmap ascii (list Z)) (ie : Z * ascii) =>
         let (i, elt) := ie in <[elt := default [] (b2j !! elt) ++ [i]]> b2j)
      (zip (seqZ (Z.of_nat (length pre)) (Z.of_nat (length rest))) rest) acc !! c = Some js ->
    j ∈ js -> 0 <= j /\ (pre ++ rest) !! Z.to_nat j = Some c.
Proof.
  induction rest as [|x rest IH]; intros pre acc Hacc c js j Hl Hj;
    [by apply (Hacc c js)|].
  rewrite seqZ_cons in Hl by (simpl; lia). cbn [zip zip_with fold_left] in Hl.
  replace (Z.pred (Z.of_nat (length (x :: rest)))) with (Z.of_nat (length rest)) in Hl
    by (simpl; lia).
  replace (Z.succ (Z.of_nat (length pre))) with (Z.of_nat (length (pre ++ [x]))) in Hl
    by (rewrite length_app; simpl; lia).
  replace (pre ++ x :: rest) with ((pre ++ [x]) ++ rest) by (by rewrite <- app_assoc).
  eapply IH; [|exact Hl|exact Hj].
  clear c js j Hl Hj. intros c js j Hl Hj.
  rewrite <- app_assoc. simpl.
  destruct (decide (x = c)) as [->|Hne].
  - rewrite lookup_insert_eq in Hl. injection Hl as <-.
    apply elem_of_app in Hj as [Hj|Hj].
    + destruct (acc !! c) as [js0|] eqn:E; simpl in Hj.
      * by apply (Hacc c js0).
      * by apply elem_of_nil in Hj.
    + apply list_elem_of_singleton in Hj as ->. split; [lia|].
      rewrite Nat2Z.id. by rewrite list_lookup_middle.
  - rewrite lookup_insert_ne in Hl by done. by apply (Hacc c js).
Qed.

Lemma chain_indices_sound (bl : list ascii) c js j :
  chain_indices bl !! c = Some js -> j ∈ js ->
  0 <= j /\ bl !! Z.to_nat j = Some c.
Proof.
  intros Hl Hj. apply (chain_indices_from bl [] ∅) with js; [|done..].
  intros c' js' j' H. by rewrite lookup_empty in H.
Qed.

Lemma chain_b_sound isj aj (bl : list ascii) c js j :
  (chain_b isj aj bl).1.1 !! c = Some js -> j ∈ js ->
  0 <= j /\ bl !! Z.to_nat j = Some c.
Proof.
  unfold chain_b. intros Hl Hj.
  destruct (aj && (200 <=? Z.of_nat (length bl))); simpl in Hl.
  - apply map_lookup_filter_Some in Hl as [Hl _].
    apply map_lookup_filter_Some in Hl as [Hl _].
    by apply chain_indices_sound with js.
  - apply map_lookup_filter_Some in Hl as [Hl _].
    by apply chain_indices_sound with js.
Qed.

Lemma set_seq2_sound s (bl : list ascii) : b2j_sound (set_seq2 s bl).
Proof.
  intros c js j. unfold set_seq2.
  pose proof (chain_b_sound (isjunk s) (autojunk s) bl c js j) as H.
  destruct (chain_b (isjunk s) (autojunk s) bl) as [[m ju] po]. simpl in *. done.
Qed.

Lemma set_seq1_sound s (al : list ascii) : b2j_sound s -> b2j_sound (set_seq1 s al).
Proof. intros H c js j. simpl. apply H. Qed.

(** *** The matching blocks *)

Lemma collapse_fold blocks : forall i1 j1 k1 na,
  let '(i, j, k, na') := fold_left collapse_step blocks (i1, j1, k1, na) in
  k + Zsum m_size na' = k1 + Zsum m_size na + Zsum m_size blocks.
Proof.
  induction blocks as [|[i2 j2 k2] blocks IH]; intros i1 j1 k1 na; simpl; [lia|].
  destruct ((i1 + k1 =? i2) && (j1 + k1 =? j2)).
  - specialize (IH i1 j1 (k1 + k2) na).
    destruct (fold_left collapse_step blocks (i1, j1, k1 + k2, na)) as [[[i j] k] na'].
    lia.
  - destruct (Z.eqb_spec k1 0) as [->|Hk]; simpl.
    + specialize (IH i2 j2 k2 na).
      destruct (fold_left collapse_step blocks (i2, j2, k2, na)) as [[[i j] k] na'].
      lia.
    + specialize (IH i2 j2 k2 (na ++ [mkMatch i1 j1 k1])).
      destruct (fold_left collapse_step blocks _) as [[[i j] k] na'].
      rewrite Zsum_app in IH. simpl in IH. lia.
Qed.

Lemma collapse_sum blocks : Zsum m_size (collapse blocks) = Zsum m_size blocks.
Proof.
  unfold collapse. pose proof (collapse_fold blocks 0 0 0 []) as H.
  destruct (fold_left collapse_step blocks (0, 0, 0, [])) as [[[i j] k] na].
  simpl in H. destruct (Z.eqb_spec k 0) as [->|Hk]; simpl.
  - lia.
  - rewrite Zsum_app. simpl. lia.
Qed.

Lemma get_matching_blocks_ok s :
  b2j_sound s ->
  exists blocks, get_matching_blocks s = Ok blocks /\
    Zsum m_size blocks <= Z.of_nat (common (a s) (b s)).
Proof.
  intros Hs. unfold get_matching_blocks.
  destruct (match_regions_ok s Hs (S (2 * length (a s)))
              [(0, Z.of_nat (length (a s)), 0, Z.of_nat (length (b s)))] [])
    as (blocks & -> & Hsum).
  { apply Forall_cons_2; [|done]. split; lia. }
  { simpl. lia. }
  simpl. eexists. split; [done|].
  rewrite Zsum_app, collapse_sum, (Zsum_perm _ _ _ (merge_sort_Permutation _ _)).
  simpl in Hsum |- *. rewrite !slice_all in Hsum. lia.
Qed.

(** *** [quick_ratio] counts the common elements *)

Lemma fullbcount_from (bl : list ascii) : forall (fc : gmap ascii Z) (R : gmultiset ascii),
  (forall c, default 0 (fc !! c) = Z.of_nat (multiplicity c R)) ->
  forall c,
    default 0 (fold_left (fun (fc : gmap ascii Z) elt =>
                            <[elt := default 0 (fc !! elt) + 1]> fc) bl fc !! c)
    = Z.of_nat (multiplicity c (list_to_set_disj bl ⊎ R)).
Proof.
  induction bl as [|x bl IH]; intros fc R Hfc c.
  - cbn [fold_left]. rewrite Hfc.
    by rewrite multiplicity_disj_union, list_to_set_disj_nil, multiplicity_empty.
  - cbn [fold_left]. rewrite (IH _ ({[+ x +]} ⊎ R)).
    + rewrite list_to_set_disj_cons, !multiplicity_disj_union. lia.
    + intros c'. destruct (decide (x = c')) as [->|Hne].
      * rewrite lookup_insert_eq. simpl. rewrite Hfc.
        rewrite multiplicity_disj_union, multiplicity_singleton_eq. lia.
      * rewrite lookup_insert_ne by done. rewrite Hfc.
        rewrite multiplicity_disj_union, multiplicity_singleton_ne by done. lia.
Qed.

Lemma fullbcount_spec (bl : list ascii) c :
  default 0 (fullbcount bl !! c) = Z.of_nat (multiplicity c (list_to_set_disj bl)).
Proof.
  unfold fullbcount. rewrite (fullbcount_from bl ∅ ∅).
  - by rewrite multiplicity_disj_union, multiplicity_empty, Nat.add_0_r.
  - intros c'. by rewrite lookup_empty, multiplicity_empty.
Qed.

Lemma quick_fold fc (al : list ascii) : forall avail matches (R : gmultiset ascii),
  (forall c, Z.of_nat (multiplicity c R) = Z.max 0 (remaining fc avail c)) ->
  (fold_left (quick_step fc) al (avail, matches)).2
  = matches + Z.of_nat (size ((list_to_set_disj al : gmultiset ascii) ∩ R)).
Proof.
  induction al as [|x al IH]; intros avail matches R HR.
  - cbn [fold_left snd]. rewrite list_to_set_disj_nil.
    assert (H0 : (∅ : gmultiset ascii) ∩ R = ∅) by multiset_solver.
    rewrite H0, gmultiset_size_empty. lia.
  - cbn [fold_left quick_step]. fold (remaining fc avail x).
    pose proof (HR x) as Hx.
    destruct (Z.ltb_spec 0 (remaining fc avail x)) as [Hpos|Hneg].
    + rewrite (IH _ _ (R ∖ {[+ x +]})).
      * rewrite list_to_set_disj_cons.
        replace (({[+ x +]} ⊎ list_to_set_disj al) ∩ R)
          with ({[+ x +]} ⊎ ((list_to_set_disj al : gmultiset ascii) ∩ (R ∖ {[+ x +]}))).
        { rewrite gmultiset_size_disj_union, gmultiset_size_singleton. lia. }
        apply gmultiset_eq. intros c.
        rewrite !multiplicity_disj_union, !multiplicity_intersection,
          !multiplicity_disj_union, multiplicity_difference.
        destruct (decide (c = x)) as [->|Hne].
        -- rewrite multiplicity_singleton_eq. lia.
        -- rewrite multiplicity_singleton_ne by done. lia.
      * intros c. unfold remaining in *. rewrite multiplicity_difference.
        destruct (decide (x = c)) as [->|Hne].
        -- rewrite lookup_insert_eq, multiplicity_singleton_eq. lia.
        -- rewrite lookup_insert_ne by done.
           rewrite multiplicity_singleton_ne by done.
           specialize (HR c). lia.
    + rewrite (IH _ _ R).
      * rewrite list_to_set_disj_cons. do 3 f_equal.
        apply gmultiset_eq. intros c.
        rewrite !multiplicity_intersection, !multiplicity_disj_union.
        destruct (decide (c = x)) as [->|Hne].
        -- rewrite multiplicity_singleton_eq. lia.
        -- rewrite multiplicity_singleton_ne by done. lia.
      * intros c. unfold remaining in *.
        destruct (decide (x = c)) as [->|Hne].
        -- rewrite lookup_insert_eq. lia.
        -- rewrite lookup_insert_ne by done. apply HR.
Qed.

Lemma quick_ratio_spec s :
  quick_ratio s = calculate_ratio (Z.of_nat (common (a s) (b s))) (total_length s).
Proof.
  unfold quick_ratio.
  pose proof (quick_fold (fullbcount (b s)) (a s) ∅ 0 (list_to_set_disj (b s))) as H.
  destruct (fold_left (quick_step (fullbcount (b s))) (a s) (∅, 0)) as [av m].
  simpl in H. rewrite H; [done|].
  intros c. unfold remaining. rewrite lookup_empty, fullbcount_spec. lia.
Qed.

Lemma common_le_min (x y : list ascii) :
  Z.of_nat (common x y) <= Z.min (Z.of_nat (length x)) (Z.of_nat (length y)).
Proof.
  unfold common.
  assert (Hlen : forall l : list ascii, size (list_to_set_disj l : gmultiset ascii) = length l).
  { induction l as [|c l IH]; [done|].
    rewrite list_to_set_disj_cons, gmultiset_size_disj_union,
      gmultiset_size_singleton. simpl. lia. }
  rewrite <- (Hlen x), <- (Hlen y).
  set (X := list_to_set_disj x : gmultiset ascii).
  set (Y := list_to_set_disj y : gmultiset ascii).
  assert (H1 : X ∩ Y ⊆ X) by multiset_solver.
  assert (H2 : X ∩ Y ⊆ Y) by multiset_solver.
  apply gmultiset_subseteq_size in H1, H2. lia.
Qed.

Lemma calculate_ratio_mono m1 m2 len :
  0 <= len -> m1 <= m2 -> (calculate_ratio m1 len <= calculate_ratio m2 len)%Q.
Proof.
  intros Hlen Hm. unfold calculate_ratio.
  destruct (Z.eqb_spec len 0); simpl; [apply Qle_refl|].
  unfold Qle. simpl. nia.
Qed.

Lemma ratio_ok s :
  b2j_sound s ->
  exists r, ratio s = Ok r /\ (r <= quick_ratio s)%Q /\
            (quick_ratio s <= real_quick_ratio s)%Q.
Proof.
  intros Hs. unfold ratio.
  destruct (get_matching_blocks_ok s Hs) as (blocks & -> & Hsum). simpl.
  eexists. split; [done|]. rewrite quick_ratio_spec. split.
  - apply calculate_ratio_mono; [unfold total_length; lia|].
    by rewrite sum_sizes_Zsum.
  - unfold real_quick_ratio. apply calculate_ratio_mono; [lia|].
    apply common_le_min.
Qed.

End RatioFacts.

Module OrderFacts.

Lemma compare_gt_trans s1 : forall s2 s3,
  String.compare s1 s2 = Gt -> String.compare s2 s3 = Gt -> String.compare s1 s3 = Gt.
Proof.
  induction s1 as [|c1 s1 IH]; intros [|c2 s2] [|c3 s3]; simpl; try done.
  unfold Ascii.compare.
  destruct (N.compare_spec (N_of_ascii c1) (N_of_ascii c2)) as [E12|L12|G12];
    destruct (N.compare_spec (N_of_ascii c2) (N_of_ascii c3)) as [E23|L23|G23];
    destruct (N.compare_spec (N_of_ascii c1) (N_of_ascii c3)) as [E13|L13|G13];
    try done; try lia.
  apply IH.
Qed.

Lemma gt_trans s1 s2 s3 :
  Str.gt s1 s2 = true -> Str.gt s2 s3 = true -> Str.gt s1 s3 = true.
Proof.
  unfold Str.gt. intros H1 H2.
  destruct (String.compare s1 s2) eqn:E1; try done.
  destruct (String.compare s2 s3) eqn:E2; try done.
  by rewrite (compare_gt_trans _ _ _ E1 E2).
Qed.

Lemma gt_irrefl s : Str.gt s s = false.
Proof.
  unfold Str.gt. destruct (String.compare s s) eqn:E; try done.
  pose proof (String.compare_antisym s s) as H. rewrite E in H. done.
Qed.

Lemma gt_total s1 s2 :
  Str.gt s1 s2 = false -> Str.gt s2 s1 = false -> s1 = s2.
Proof.
  unfold Str.gt. rewrite (String.compare_antisym s2 s1).
  destruct (String.compare s1 s2) eqn:E; simpl; try done.
  intros _ _. by apply String.compare_eq_iff.
Qed.

Import Heapq.

Lemma tuple_gt_spec t1 t2 :
  tuple_gt t1 t2 = true <->
  (t2.1 < t1.1)%Q \/ ((t1.1 == t2.1)%Q /\ Str.gt t1.2 t2.2 = true).
Proof.
  unfold tuple_gt. destruct (Qeq_bool t1.1 t2.1) eqn:E.
  - apply Qeq_bool_iff in E. split.
    + destruct (String.eqb_spec t1.2 t2.2); [done|]. auto.
    + intros [H|[_ H]].
      * rewrite E in H. by apply Qlt_irrefl in H.
      * destruct (String.eqb_spec t1.2 t2.2) as [Heq|]; [|done].
        rewrite Heq, gt_irrefl in H. done.
  - apply Qeq_bool_neq in E. split.
    + intros H. left. apply negb_true_iff in H.
      apply Qnot_le_lt. intros Hle. apply Qle_bool_iff in Hle. congruence.
    + intros [H|[H _]]; [|done].
      apply negb_true_iff. destruct (Qle_bool t1.1 t2.1) eqn:Hle; [|done].
      apply Qle_bool_iff in Hle. exfalso. by apply (Qlt_not_le _ _ H).
Qed.

Lemma tuple_gt_trans t1 t2 t3 :
  tuple_gt t1 t2 = true -> tuple_gt t2 t3 = true -> tuple_gt t1 t3 = true.
Proof.
  rewrite !tuple_gt_spec. intros [H1|[E1 G1]] [H2|[E2 G2]].
  - left. by apply Qlt_trans with t2.1.
  - left. by rewrite <- E2.
  - left. by rewrite E1.
  - right. split; [by rewrite E1|]. by apply gt_trans with t2.2.
Qed.

Lemma tuple_gt_false t1 t2 :
  tuple_gt t1 t2 = false ->
  (t1.1 < t2.1)%Q \/ ((t1.1 == t2.1)%Q /\ Str.gt t1.2 t2.2 = false).
Proof.
  intros H. destruct (Qlt_le_dec t1.1 t2.1) as [Hlt|Hle]; [by left|].
  right. assert (Hn : ~ tuple_gt t1 t2 = true) by congruence.
  rewrite tuple_gt_spec in Hn.
  assert (E : (t1.1 == t2.1)%Q).
  { apply Qle_antisym; [|done]. apply Qnot_lt_le. intros Hlt. apply Hn. by left. }
  split; [done|]. destruct (Str.gt t1.2 t2.2) eqn:G; [|done].
  exfalso. apply Hn. by right.
Qed.

Lemma gt_asym s1 s2 : Str.gt s1 s2 = true -> Str.gt s2 s1 = false.
Proof.
  unfold Str.gt. rewrite (String.compare_antisym s2 s1).
  by destruct (String.compare s1 s2).
Qed.

Lemma ngt_trans s1 s2 s3 :
  Str.gt s1 s2 = false -> Str.gt s2 s3 = false -> Str.gt s1 s3 = false.
Proof.
  intros H12 H23. destruct (Str.gt s1 s3) eqn:H13; [|done].
  destruct (Str.gt s2 s1) eqn:H21.
  - by rewrite (gt_trans _ _ _ H21 H13) in H23.
  - rewrite (gt_total _ _ H12 H21) in H13. congruence.
Qed.

Lemma tuple_gt_irrefl t : tuple_gt t t = false.
Proof.
  unfold tuple_gt. rewrite Qeq_bool_refl. by rewrite String.eqb_refl.
Qed.

Lemma tuple_gt_asym t1 t2 : tuple_gt t1 t2 = true -> tuple_gt t2 t1 = false.
Proof.
  intros H. destruct (tuple_gt t2 t1) eqn:H'; [|done].
  pose proof (tuple_gt_trans _ _ _ H H') as Hc. by rewrite tuple_gt_irrefl in Hc.
Qed.

Lemma tuple_ngt_trans t1 t2 t3 :
  tuple_gt t1 t2 = false -> tuple_gt t2 t3 = false -> tuple_gt t1 t3 = false.
Proof.
  intros H12 H23. destruct (tuple_gt t1 t3) eqn:H13; [|done].
  apply tuple_gt_false in H12, H23. apply tuple_gt_spec in H13.
  exfalso. destruct H12 as [L12|[E12 G12]], H23 as [L23|[E23 G23]],
    H13 as [L31|[E13 G13]]; try lra.
  rewrite (ngt_trans _ _ _ G12 G23) in G13. done.
Qed.

Section Max.
Context {A : Type} (gt : A -> A -> bool).
Hypothesis gt_irreflexive : forall x, gt x x = false.
Hypothesis gt_asymmetric : forall x y, gt x y = true -> gt y x = false.
Hypothesis ngt_transitive :
  forall x y z, gt x y = false -> gt y z = false -> gt x z = false.

Lemma max_from_ok it : forall m0,
  (max_from gt m0 it = m0 \/ max_from gt m0 it ∈ it) /\
  gt m0 (max_from gt m0 it) = false /\
  (forall y, y ∈ it -> gt y (max_from gt m0 it) = false).
Proof.
  induction it as [|x it IH]; intros m0; simpl.
  - split; [by left|]. split; [done|]. intros y Hy. by apply elem_of_nil in Hy.
  - destruct (gt x m0) eqn:Hx.
    + destruct (IH x) as (Hin & Hge & Hall). split; [|split].
      * right. destruct Hin as [->|Hin]; [by left|by right].
      * apply ngt_transitive with x; [by apply gt_asymmetric|done].
      * intros y Hy. apply elem_of_cons in Hy as [->|Hy]; [done|by apply Hall].
    + destruct (IH m0) as (Hin & Hge & Hall). split; [|split].
      * destruct Hin as [->|Hin]; [by left|right; by right].
      * done.
      * intros y Hy. apply elem_of_cons in Hy as [->|Hy]; [|by apply Hall].
        by apply ngt_transitive with m0.
Qed.

Lemma py_max_None it : py_max gt it = None <-> it = [].
Proof. by destruct it. Qed.

Lemma py_max_Some it m :
  py_max gt it = Some m ->
  m ∈ it /\ forall y, y ∈ it -> gt y m = false.
Proof.
  destruct it as [|x it]; [done|]. simpl. intros [= <-].
  destruct (max_from_ok it x) as (Hin & Hge & Hall). split.
  - destruct Hin as [->|Hin]; [by left|by right].
  - intros y Hy. apply elem_of_cons in Hy as [->|Hy]; [done|by apply Hall].
Qed.
End Max.

End OrderFacts.

Module CloseMatchFacts.
Import Difflib DifflibSpec RegionSpec MatchSpec DifflibFacts RegionFacts RatioFacts OrderFacts.

Lemma matcher_for_sound word x : b2j_sound (matcher_for word x).
Proof. apply set_seq1_sound, set_seq2_sound. Qed.

Lemma ratio_similarity word x :
  ratio (matcher_for word x) = Ok (similarity word x).
Proof.
  unfold similarity.
  destruct (ratio_ok _ (matcher_for_sound word x)) as (r & -> & _). done.
Qed.

Lemma similarity_le_quick word x :
  (similarity word x <= quick_ratio (matcher_for word x))%Q /\
  (quick_ratio (matcher_for word x) <= real_quick_ratio (matcher_for word x))%Q.
Proof.
  destruct (ratio_ok _ (matcher_for_sound word x)) as (r & Hr & H1 & H2).
  rewrite ratio_similarity in Hr. injection Hr as <-. done.
Qed.

(** The two cheap tests never reject a possibility that reaches the cutoff. *)
Lemma quick_tests_pass word x cutoff :
  Qle_bool cutoff (similarity word x) = true ->
  Qle_bool cutoff (real_quick_ratio (matcher_for word x))
  && Qle_bool cutoff (quick_ratio (matcher_for word x)) = true.
Proof.
  intros H. apply Qle_bool_iff in H.
  destruct (similarity_le_quick word x) as [H1 H2].
  apply andb_true_intro. split; apply Qle_bool_iff; lra.
Qed.

Lemma scan_possibilities_spec word cutoff ps : forall s acc,
  set_seq1 s [] = set_seq1 (set_seq2 new_matcher (list_ascii_of_string word)) [] ->
  scan_possibilities s cutoff ps acc = Ok (acc ++ candidates word cutoff ps).
Proof.
  induction ps as [|x ps IH]; intros s acc Hs.
  - simpl. by rewrite app_nil_r.
  - cbn [scan_possibilities].
    assert (E : set_seq1 s (list_ascii_of_string x) = matcher_for word x).
    { change (set_seq1 s (list_ascii_of_string x))
        with (set_seq1 (set_seq1 s []) (list_ascii_of_string x)).
      by rewrite Hs. }
    rewrite E. unfold candidates. cbn [List.filter].
    destruct (Qle_bool cutoff (similarity word x)) eqn:Hc.
    + rewrite (quick_tests_pass _ _ _ Hc), ratio_similarity. cbn [bind].
      rewrite Hc. rewrite IH by done.
      cbn [map]. by rewrite <- app_assoc.
    + destruct (_ && _).
      * rewrite ratio_similarity. cbn [bind]. rewrite Hc. by apply IH.
      * by apply IH.
Qed.

Lemma get_close_matches_spec word ps cutoff :
  (0 <= cutoff)%Q -> (cutoff <= 1)%Q ->
  get_close_matches word ps 1 cutoff =
  Ok match Heapq.py_max Heapq.tuple_gt (candidates word cutoff ps) with
     | None => []
     | Some t => [t.2]
     end.
Proof.
  intros H0 H1. unfold get_close_matches. simpl (negb (0 <? 1)). cbn iota.
  apply Qle_bool_iff in H0, H1. rewrite H0, H1. cbn [andb negb].
  rewrite (scan_possibilities_spec word) by done. cbn [bind app].
  unfold Heapq.nlargest. simpl (1 =? 1). cbn iota.
  by destruct (Heapq.py_max _ _).
Qed.

Lemma candidates_elem word cutoff ps t :
  t ∈ candidates word cutoff ps <->
  t.2 ∈ ps /\ t.1 = similarity word t.2 /\ (cutoff <= similarity word t.2)%Q.
Proof.
  unfold candidates. rewrite list_elem_of_fmap. split.
  - intros (x & -> & Hx). apply list_elem_of_In, filter_In in Hx as [Hx Hc].
    apply list_elem_of_In in Hx. apply Qle_bool_iff in Hc. done.
  - intros (Hin & Hr & Hc). exists t.2. split.
    + destruct t as [r x]. simpl in *. by subst.
    + apply list_elem_of_In, filter_In. split; [by apply list_elem_of_In|].
      by apply Qle_bool_iff.
Qed.

(** What [get_close_matches] with [n = 1] returns: nothing when no
    possibility reaches the cutoff, else the one possibility that is greatest
    in the order of the pairs (score, possibility). *)
Lemma get_close_matches_cases word ps cutoff :
  (0 <= cutoff)%Q -> (cutoff <= 1)%Q ->
  (get_close_matches word ps 1 cutoff = Ok [] /\
   forall x, x ∈ ps -> (similarity word x < cutoff)%Q)
  \/
  (exists k, get_close_matches word ps 1 cutoff = Ok [k] /\
     k ∈ ps /\ (cutoff <= similarity word k)%Q /\
     forall x, x ∈ ps -> (cutoff <= similarity word x)%Q ->
       Heapq.tuple_gt (similarity word x, x) (similarity word k, k) = false).
Proof.
  intros H0 H1. rewrite get_close_matches_spec by done.
  destruct (Heapq.py_max Heapq.tuple_gt (candidates word cutoff ps)) as [t|] eqn:E.
  - right. exists t.2.
    apply (py_max_Some _ tuple_gt_irrefl tuple_gt_asym tuple_ngt_trans) in E as [Hin Hmax].
    apply candidates_elem in Hin as (Hin & Hr & Hc).
    repeat split; try done.
    intros x Hx Hcx. rewrite <- Hr, <- surjective_pairing.
    apply Hmax. by apply candidates_elem.
  - left. split; [done|]. apply py_max_None in E.
    intros x Hx. apply Qnot_le_lt. intros Hc.
    assert (Hin : (similarity word x, x) ∈ candidates word cutoff ps)
      by (by apply candidates_elem).
    rewrite E in Hin. by apply elem_of_nil in Hin.
Qed.

End CloseMatchFacts.

Module DictFacts.

Lemma get_Some_elem d k v : Dict.get d k = Some v -> (k, v) ∈ d.
Proof.
  induction d as [|[k' v'] d IH]; simpl; [done|].
  destruct (String.eqb_spec k' k) as [->|Hne].
  - intros [= ->]. by left.
  - intros H. right. by apply IH.
Qed.

Lemma get_None_keys d k : Dict.get d k = None <-> k ∉ Dict.keys d.
Proof.
  induction d as [|[k' v'] d IH]; simpl.
  - split; [intros _ H; by apply elem_of_nil in H|done].
  - destruct (String.eqb_spec k' k) as [->|Hne].
    + split; [done|]. intros H. exfalso. apply H. by left.
    + rewrite IH, not_elem_of_cons. split; [intros H; split; [congruence|done]|].
      by intros [_ H].
Qed.

Lemma contains_keys d k : Dict.contains d k = true <-> k ∈ Dict.keys d.
Proof.
  unfold Dict.contains. destruct (Dict.get d k) as [v|] eqn:E.
  - split; [|done]. intros _. apply get_Some_elem in E.
    apply list_elem_of_fmap. by exists (k, v).
  - apply get_None_keys in E. split; [done|]. intros H. by apply E in H.
Qed.

Lemma contains_false_keys d k : Dict.contains d k = false <-> k ∉ Dict.keys d.
Proof.
  rewrite <- contains_keys. by destruct (Dict.contains d k).
Qed.

Lemma elem_get d k : k ∈ Dict.keys d -> exists v, Dict.get d k = Some v.
Proof.
  intros H. destruct (Dict.get d k) as [v|] eqn:E; [eauto|].
  by apply get_None_keys in E.
Qed.

Lemma elem_get_NoDup d k v :
  NoDup (Dict.keys d) -> (k, v) ∈ d -> Dict.get d k = Some v.
Proof.
  induction d as [|[k' v'] d IH]; simpl; intros Hnd Hin.
  - by apply elem_of_nil in Hin.
  - apply NoDup_cons in Hnd as [Hk' Hnd].
    apply elem_of_cons in Hin as [[= -> ->]|Hin].
    + by rewrite String.eqb_refl.
    + destruct (String.eqb_spec k' k) as [->|Hne]; [|by apply IH].
      exfalso. apply Hk'. apply list_elem_of_fmap. by exists (k, v).
Qed.

Lemma get_perm d1 d2 k :
  NoDup (Dict.keys d1) -> d1 ≡ₚ d2 -> Dict.get d1 k = Dict.get d2 k.
Proof.
  intros Hnd Hp.
  assert (Hnd2 : NoDup (Dict.keys d2)).
  { unfold Dict.keys. by rewrite <- Hp. }
  destruct (Dict.get d1 k) as [v|] eqn:E1.
  - apply get_Some_elem in E1. rewrite Hp in E1.
    symmetry. by apply elem_get_NoDup.
  - destruct (Dict.get d2 k) as [v|] eqn:E2; [|done].
    apply get_Some_elem in E2. rewrite <- Hp in E2.
    apply (elem_get_NoDup _ _ _ Hnd) in E2. congruence.
Qed.

End DictFacts.

Module FuzzyFacts.
Import Difflib MatchSpec OrderFacts CloseMatchFacts DictFacts.

Lemma normalize_Text s : normalize (Text s) = Some (normalize_text s).
Proof. reflexivity. Qed.

Lemma normalize_present v :
  isna v = false -> normalize v = Some (normalize_text (py_str v)).
Proof. unfold normalize. by intros ->. Qed.

Lemma default_cutoff_range : (0 <= default_cutoff)%Q /\ (default_cutoff <= 1)%Q.
Proof. unfold default_cutoff. split; unfold Qle; simpl; lia. Qed.

(** The three ways a present value leaves [fuzzy_correct]. *)
Lemma fuzzy_correct_cases value_ mapping cutoff key :
  (0 <= cutoff)%Q -> (cutoff <= 1)%Q ->
  isna value_ = false -> normalize value_ = Some key ->
  (exists v, key ∈ Dict.keys mapping /\ Dict.get mapping key = Some v /\
             fuzzy_correct value_ mapping cutoff = Ok (Text v))
  \/
  ((key ∉ Dict.keys mapping) /\
   (forall x, x ∈ Dict.keys mapping -> (similarity key x < cutoff)%Q) /\
   get_close_matches key (Dict.keys mapping) 1 cutoff = Ok [] /\
   fuzzy_correct value_ mapping cutoff = Ok value_)
  \/
  (exists k v, (key ∉ Dict.keys mapping) /\
     get_close_matches key (Dict.keys mapping) 1 cutoff = Ok [k] /\
     k ∈ Dict.keys mapping /\ (cutoff <= similarity key k)%Q /\
     (forall x, x ∈ Dict.keys mapping -> (cutoff <= similarity key x)%Q ->
        Heapq.tuple_gt (similarity key x, x) (similarity key k, k) = false) /\
     Dict.get mapping k = Some v /\
     fuzzy_correct value_ mapping cutoff = Ok (Text v)).
Proof.
  intros H0 H1 Hna Hkey. unfold fuzzy_correct. rewrite Hna, Hkey.
  destruct (Dict.contains mapping key) eqn:Hc.
  - left. apply contains_keys in Hc. destruct (elem_get _ _ Hc) as [v Hv].
    exists v. unfold Dict.getitem. rewrite Hv. done.
  - right. apply contains_false_keys in Hc.
    destruct (get_close_matches_cases key (Dict.keys mapping) cutoff H0 H1)
      as [[E Hall]|(k & E & Hin & Hcut & Hmax)]; rewrite E; cbn [bind].
    + left. done.
    + right. destruct (elem_get _ _ Hin) as [v Hv]. exists k, v.
      unfold Dict.getitem. rewrite Hv. done.
Qed.

Lemma fuzzy_correct_returns value_ mapping :
  exists r, fuzzy_correct value_ mapping default_cutoff = Ok r.
Proof.
  destruct (isna value_) eqn:Hna.
  - exists value_. unfold fuzzy_correct. by rewrite Hna.
  - destruct default_cutoff_range as [H0 H1].
    destruct (fuzzy_correct_cases value_ mapping default_cutoff _ H0 H1 Hna
                (normalize_present _ Hna))
      as [(v & _ & _ & E)|[(_ & _ & _ & E)|(k & v & _ & _ & _ & _ & _ & _ & E)]];
      eauto.
Qed.

End FuzzyFacts.

Module FrameFacts.
Import FuzzyFacts FrameSpec.

Lemma label_eqb_spec (a b : label) : reflect (a = b) (label_eqb a b).
Proof.
  destruct a as [s|r], b as [t|q]; simpl; try (constructor; discriminate).
  - destruct (String.eqb_spec s t) as [->|Hne]; constructor; congruence.
  - destruct (String.eqb_spec r q) as [->|Hne]; constructor; congruence.
Qed.

Lemma label_eqb_refl (a : label) : label_eqb a a = true.
Proof. by destruct (label_eqb_spec a a). Qed.


Lemma apply_Forall2 f series : forall cleaned,
  Frame.apply f series = Ok cleaned ->
  Forall2 (fun x y => f x = Ok y) series cleaned.
Proof.
  induction series as [|x series IH]; simpl; intros cleaned H.
  - injection H as <-. constructor.
  - destruct (f x) as [y| |] eqn:Ex; simpl in H; try done.
    destruct (Frame.apply f series) as [ys| |]; simpl in H; try done.
    injection H as <-. constructor; [done|by apply IH].
Qed.

Lemma apply_returns f series :
  (forall x, exists y, f x = Ok y) ->
  exists cleaned, Frame.apply f series = Ok cleaned.
Proof.
  intros Hf. induction series as [|x series [ys IH]]; simpl; [eauto|].
  destruct (Hf x) as [y ->]. rewrite IH. simpl. eauto.
Qed.

Lemma getitem_returns df col :
  col ∈ Frame.columns df -> exists series, Frame.getitem df col = Ok series.
Proof.
  induction df as [|[c cells] df IH]; simpl; intros Hin.
  - by apply elem_of_nil in Hin.
  - destruct (label_eqb_spec c col) as [->|Hne]; [eauto|].
    apply elem_of_cons in Hin as [->|Hin]; [done|by apply IH].
Qed.

Lemma getitem_elem df col series :
  Frame.getitem df col = Ok series -> (col, series) ∈ df.
Proof.
  induction df as [|[c cells] df IH]; simpl; [done|].
  destruct (label_eqb_spec c col) as [->|Hne].
  - intros [= ->]. by left.
  - intros H. right. by apply IH.
Qed.

Lemma columns_setitem df col cells :
  Frame.columns (Frame.setitem df col cells) = Frame.columns df.
Proof.
  unfold Frame.columns, Frame.setitem. rewrite map_map. apply map_ext.
  intros [c x]. simpl. by destruct (label_eqb c col).
Qed.

Lemma lookup_setitem df col cells (n : nat) :
  Frame.setitem df col cells !! n
  = (fun column : label * list value =>
       if label_eqb column.1 col then (column.1, cells) else column) <$> df !! n.
Proof. unfold Frame.setitem. apply list_lookup_fmap. Qed.

Lemma getitem_setitem df col cells col' :
  Frame.getitem (Frame.setitem df col cells) col'
  = match Frame.getitem df col' with
    | Ok series => Ok (if label_eqb col' col then cells else series)
    | other => other
    end.
Proof.
  induction df as [|[c s] df IH]; simpl; [done|].
  destruct (label_eqb_spec c col) as [->|Hne]; simpl.
  - destruct (label_eqb_spec col col') as [<-|Hne']; [|done].
    by rewrite label_eqb_refl.
  - destruct (label_eqb_spec c col') as [<-|Hne']; [|done].
    by destruct (label_eqb_spec c col).
Qed.

(** In a table with distinct labels a label has one column. *)
Lemma column_unique df (n : nat) col cells series :
  NoDup (Frame.columns df) ->
  df !! n = Some (col, cells) -> (col, series) ∈ df -> series = cells.
Proof.
  intros Hnd Hn Hin. apply list_elem_of_lookup in Hin as [m Hm].
  assert (m = n) as ->; [|congruence].
  apply (NoDup_lookup (Frame.columns df) m n col); [done|..];
    unfold Frame.columns; rewrite list_lookup_fmap; [by rewrite Hm|by rewrite Hn].
Qed.

(** The scan of the labels: it fails on a label that is not text, and
    otherwise keeps, in order, the labels whose lower-cased text contains
    the word. *)
Lemma select_cases word cols :
  (Forall (fun c => is_text c = true) cols /\
   select word cols = Ok (List.filter (label_matches word) cols))
  \/
  (Exists (fun c => is_text c = false) cols /\
   select word cols = Raise AttributeError).
Proof.
  induction cols as [|c cols IH]; simpl; [left; by split|].
  destruct c as [s|r]; simpl.
  - destruct IH as [[Hall E]|[Hex E]]; rewrite E; simpl.
    + left. split; [by constructor|]. by destruct (Str.contains word (Str.lower s)).
    + right. split; [by apply Exists_cons_tl|done].
  - right. split; [by apply Exists_cons_hd|done].
Qed.

Lemma matching_columns_cases word df :
  (Forall (fun c => is_text c = true) (Frame.columns df) /\
   matching_columns word df = Ok (List.filter (label_matches word) (Frame.columns df)))
  \/
  (Exists (fun c => is_text c = false) (Frame.columns df) /\
   matching_columns word df = Raise AttributeError).
Proof. apply select_cases. Qed.

Lemma text_and_not df :
  Forall (fun c => is_text c = true) (Frame.columns df) ->
  Exists (fun c => is_text c = false) (Frame.columns df) -> False.
Proof.
  intros Hall Hex. apply Exists_exists in Hex as (c & Hin & Hc).
  rewrite Forall_forall in Hall. specialize (Hall c Hin). congruence.
Qed.

Lemma matching_columns_Ok word df cols :
  matching_columns word df = Ok cols ->
  Forall (fun c => is_text c = true) (Frame.columns df) /\
  cols = List.filter (label_matches word) (Frame.columns df).
Proof.
  destruct (matching_columns_cases word df) as [[Hall E]|[_ E]]; rewrite E; [|done].
  intros [= <-]. done.
Qed.

(** Both scans of COLUMN CHECK succeed or both fail. *)
Lemma matching_columns_both word word' df cols :
  matching_columns word df = Ok cols ->
  matching_columns word' df = Ok (List.filter (label_matches word') (Frame.columns df)).
Proof.
  intros H. apply matching_columns_Ok in H as [Hall _].
  destruct (matching_columns_cases word' df) as [[_ E]|[Hex _]]; [done|].
  exfalso. by apply (text_and_not df).
Qed.

Lemma matching_columns_elem word df cols c :
  matching_columns word df = Ok cols ->
  (c ∈ cols <-> c ∈ Frame.columns df /\ label_matches word c = true).
Proof.
  intros H. apply matching_columns_Ok in H as [_ ->].
  rewrite !list_elem_of_In, filter_In. done.
Qed.


Lemma matching_head_column word df cols col :
  matching_columns word df = Ok cols -> head cols = Some col ->
  col ∈ Frame.columns df.
Proof.
  intros H Hh. apply (matching_columns_elem word df cols col H).
  destruct cols as [|c ?]; [done|]. injection Hh as ->. by left.
Qed.

(** The outcomes of COLUMN CHECK and CLEAN. *)
Lemma clean_table_cases df :
  (Exists (fun c => is_text c = false) (Frame.columns df) /\
   matching_columns "state" df = Raise AttributeError /\
   clean_table df = Raise AttributeError)
  \/
  (matching_columns "state" df = Ok [] /\
   clean_table df = Raise (ValueError "State column not found"))
  \/
  (exists state_cols,
     matching_columns "state" df = Ok state_cols /\ state_cols <> [] /\
     matching_columns "district" df = Ok [] /\
     clean_table df = Raise (ValueError "District column not found"))
  \/
  (exists state_cols district_cols state_col district_col
          series1 cleaned1 series2 cleaned2,
     matching_columns "state" df = Ok state_cols /\
     matching_columns "district" df = Ok district_cols /\
     head state_cols = Some state_col /\
     head district_cols = Some district_col /\
     Frame.getitem df state_col = Ok series1 /\
     Forall2 (fun x y => fuzzy_correct x state_map default_cutoff = Ok y)
             series1 cleaned1 /\
     Frame.getitem (Frame.setitem df state_col cleaned1) district_col = Ok series2 /\
     Forall2 (fun x y => fuzzy_correct x district_map default_cutoff = Ok y)
             series2 cleaned2 /\
     clean_table df
     = Ok (Frame.setitem (Frame.setitem df state_col cleaned1) district_col cleaned2)).
Proof.
  unfold clean_table.
  destruct (matching_columns_cases "state" df) as [[Hall Es]|[Hex Es]];
    [|left; by rewrite Es].
  right. pose proof (matching_columns_both _ "district" _ _ Es) as Ed.
  rewrite Es, Ed. cbn [bind].
  destruct (List.filter (label_matches "state") (Frame.columns df))
    as [|state_col srest] eqn:Fs; [by left|].
  right.
  destruct (List.filter (label_matches "district") (Frame.columns df))
    as [|district_col drest] eqn:Fd.
  { left. by exists (state_col :: srest). }
  right.
  destruct (getitem_returns df state_col) as [series1 E1];
    [by apply (matching_head_column "state" df _ _ Es)|].
  destruct (apply_returns (fun x => fuzzy_correct x state_map default_cutoff) series1)
    as [cleaned1 A1]; [intros x; apply fuzzy_correct_returns|].
  destruct (getitem_returns (Frame.setitem df state_col cleaned1) district_col)
    as [series2 E2].
  { rewrite columns_setitem. by apply (matching_head_column "district" df _ _ Ed). }
  destruct (apply_returns (fun x => fuzzy_correct x district_map default_cutoff) series2)
    as [cleaned2 A2]; [intros x; apply fuzzy_correct_returns|].
  exists (state_col :: srest), (district_col :: drest),
    state_col, district_col, series1, cleaned1, series2, cleaned2.
  rewrite E1. cbn [bind]. rewrite A1. cbn [bind]. rewrite E2. cbn [bind].
  rewrite A2. cbn [bind].
  repeat split; try done; by apply apply_Forall2.
Qed.

(** The cells of the table that [clean_table] returns, column by column,
    for distinct labels: the state column holds the corrections of its
    cells, the district column the corrections of what it held after the
    state column was replaced, and every other column what it held. *)
Lemma cleaned_cells df state_col district_col series1 cleaned1 series2 cleaned2 :
  NoDup (Frame.columns df) ->
  Frame.getitem df state_col = Ok series1 ->
  Forall2 (fun x y => fuzzy_correct x state_map default_cutoff = Ok y)
          series1 cleaned1 ->
  Frame.getitem (Frame.setitem df state_col cleaned1) district_col = Ok series2 ->
  Forall2 (fun x y => fuzzy_correct x district_map default_cutoff = Ok y)
          series2 cleaned2 ->
  forall (n : nat) col cells,
    df !! n = Some (col, cells) ->
    exists mid cells',
      Frame.setitem (Frame.setitem df state_col cleaned1) district_col cleaned2 !! n
      = Some (col, cells') /\
      (col = state_col ->
       Forall2 (fun x y => fuzzy_correct x state_map default_cutoff = Ok y) cells mid) /\
      (col <> state_col -> mid = cells) /\
      (col = district_col ->
       Forall2 (fun x y => fuzzy_correct x district_map default_cutoff = Ok y)
               mid cells') /\
      (col <> district_col -> cells' = mid).
Proof.
  intros Hnd G1 F1 G2 F2 n col cells Hn.
  rewrite !lookup_setitem, Hn. cbn [fmap option_fmap option_map fst snd].
  pose proof (column_unique df n col cells) as Huniq.
  rewrite getitem_setitem in G2.
  destruct (Frame.getitem df district_col) as [series2'| |] eqn:G2'; try done.
  injection G2 as G2.
  apply getitem_elem in G1, G2'.
  destruct (label_eqb_spec col state_col) as [->|Hne1]; cbn [fst snd].
  - pose proof (Huniq series1 Hnd Hn G1) as ->.
    exists cleaned1.
    destruct (label_eqb_spec state_col district_col) as [<-|Hne2].
    + rewrite label_eqb_refl in G2. subst series2.
      exists cleaned2. repeat split; done.
    + exists cleaned1. repeat split; done.
  - exists cells.
    destruct (label_eqb_spec col district_col) as [->|Hne2].
    + pose proof (Huniq series2' Hnd Hn G2') as ->.
      destruct (label_eqb_spec district_col state_col) as [E|_]; [done|].
      subst series2. exists cleaned2. repeat split; done.
    + exists cells. repeat split; done.
Qed.

End FrameFacts.

(** * The claims *)

(** ** The normaliser *)

(** C3.  [normalize] returns [None] exactly for a missing value; for any
    other value it returns the string form of the value, lower-cased, then
    stripped, then with every character removed that is neither a word
    character nor whitespace, so that only such characters remain.  The
    stripped text is the lower-cased text without its leading and trailing
    whitespace.  A value that normalises to the empty string gives the empty
    string, not [None]. *)
Theorem normalize_spec (value_ : value) :
  (normalize value_ = None <-> isna value_ = true) /\
  (isna value_ = false ->
   normalize value_
   = Some (Str.keep (fun c => Str.isword c || Str.isspace c)
             (Str.strip (Str.lower (py_str value_))))) /\
  (exists before after,
     Str.lower (py_str value_)
     = (before ++ Str.strip (Str.lower (py_str value_)) ++ after)%string /\
     Str.all Str.isspace before = true /\ Str.all Str.isspace after = true /\
     (forall c t, Str.strip (Str.lower (py_str value_)) = String c t ->
                  Str.isspace c = false) /\
     (forall t c,
        Str.strip (Str.lower (py_str value_)) = (t ++ String c EmptyString)%string ->
        Str.isspace c = false)) /\
  (forall key, normalize value_ = Some key ->
     Str.all (fun c => Str.isword c || Str.isspace c) key = true) /\
  (normalize_text (py_str value_) = EmptyString -> isna value_ = false ->
   normalize value_ = Some EmptyString /\ normalize value_ <> None).
Proof.
  assert (Hstrip : exists before after,
     Str.lower (py_str value_)
     = (before ++ Str.strip (Str.lower (py_str value_)) ++ after)%string /\
     Str.all Str.isspace before = true /\ Str.all Str.isspace after = true /\
     (forall c t, Str.strip (Str.lower (py_str value_)) = String c t ->
                  Str.isspace c = false) /\
     (forall t c,
        Str.strip (Str.lower (py_str value_)) = (t ++ String c EmptyString)%string ->
        Str.isspace c = false)).
  { destruct (StrFacts.strip_decompose (Str.lower (py_str value_)))
      as (before & after & H & Hb & Ha).
    exists before, after. repeat split; try done.
    - apply StrFacts.strip_first.
    - apply StrFacts.strip_last. }
  unfold normalize, normalize_text. rewrite StrFacts.re_sub_keep.
  destruct (isna value_).
  - repeat split; done.
  - split; [split; done|]. split; [done|]. split; [done|]. split.
    + intros key [= <-]. apply StrFacts.keep_all.
    + intros -> _. done.
Qed.

Lemma normalize_spec_witness :
  isna (Text " Cuddapah! ") = false /\
  normalize (Text " Cuddapah! ")
  = Some (Str.keep (fun c => Str.isword c || Str.isspace c)
            (Str.strip (Str.lower (py_str (Text " Cuddapah! "))))) /\
  normalize (Text " Cuddapah! ") = normalize (Text "cuddapah").
Proof.
  split; [reflexivity|]. split; [|vm_compute; reflexivity].
  apply (normalize_spec (Text " Cuddapah! ")). reflexivity.
Defined.

(** ** The fuzzy corrector *)

Section FuzzyCorrect.
Import Difflib MatchSpec OrderFacts CloseMatchFacts DictFacts FuzzyFacts.

(** C1.  [fuzzy_correct(value, mapping)] with the default cutoff 0.85: a
    missing value is returned unchanged; otherwise, with
    [key = normalize(value)], an exact member of the key set gives
    [mapping[key]]; otherwise, when some key has a similarity ratio to [key]
    of at least the cutoff, the result is the entry of the single key
    [get_close_matches] returns, whose ratio reaches the cutoff and is the
    greatest among all keys; and when no key reaches the cutoff the original
    value is returned.  [similarity key x] is the value of
    [SequenceMatcher.ratio()] for the pair. *)
Theorem fuzzy_correct_spec (value_ : value) (mapping : Dict.t) :
  (forall key x, ratio (matcher_for key x) = Ok (similarity key x)) /\
  (isna value_ = true ->
   fuzzy_correct value_ mapping default_cutoff = Ok value_) /\
  (isna value_ = false ->
   exists key, normalize value_ = Some key /\
     (key ∈ Dict.keys mapping ->
      exists v, Dict.get mapping key = Some v /\
        fuzzy_correct value_ mapping default_cutoff = Ok (Text v)) /\
     ((key ∉ Dict.keys mapping) ->
      (exists x, x ∈ Dict.keys mapping /\ (default_cutoff <= similarity key x)%Q) ->
      exists k v,
        get_close_matches key (Dict.keys mapping) 1 default_cutoff = Ok [k] /\
        k ∈ Dict.keys mapping /\
        (default_cutoff <= similarity key k)%Q /\
        (forall x, x ∈ Dict.keys mapping -> (similarity key x <= similarity key k)%Q) /\
        Dict.get mapping k = Some v /\
        fuzzy_correct value_ mapping default_cutoff = Ok (Text v)) /\
     ((key ∉ Dict.keys mapping) ->
      (forall x, x ∈ Dict.keys mapping -> (similarity key x < default_cutoff)%Q) ->
      fuzzy_correct value_ mapping default_cutoff = Ok value_)).
Proof.
  split; [apply ratio_similarity|]. split.
  { intros Hna. unfold fuzzy_correct. by rewrite Hna. }
  intros Hna. exists (normalize_text (py_str value_)).
  split; [by apply normalize_present|].
  destruct default_cutoff_range as [H0 H1].
  pose proof (fuzzy_correct_cases value_ mapping default_cutoff _ H0 H1 Hna
                (normalize_present _ Hna)) as Hcases.
  set (key := normalize_text (py_str value_)) in *.
  split; [|split].
  - intros Hin.
    destruct Hcases as [(v & _ & Hv & E)|[(Hn & _)|(k & v & Hn & _)]]; try done.
    by exists v.
  - intros Hnotin (x & Hx & Hcx).
    destruct Hcases as [(v & Hin & _)|[(_ & Hall & _)|(k & v & _ & E & Hk & Hck & Hmax & Hv & Hr)]].
    + done.
    + specialize (Hall x Hx). lra.
    + exists k, v. repeat split; try done.
      intros y Hy. destruct (Qlt_le_dec (similarity key y) default_cutoff) as [Hlt|Hle].
      * lra.
      * specialize (Hmax y Hy Hle). apply tuple_gt_false in Hmax. simpl in Hmax.
        destruct Hmax as [Hlt|[Heq _]]; lra.
  - intros Hnotin Hall.
    destruct Hcases as [(v & Hin & _)|[(_ & _ & _ & E)|(k & v & _ & _ & Hk & Hck & _)]].
    + done.
    + done.
    + specialize (Hall k Hk). lra.
Qed.

Lemma fuzzy_correct_spec_witness :
  (isna NaN = true /\ fuzzy_correct NaN district_map default_cutoff = Ok NaN) /\
  (isna (Text "Cudapah") = false /\
   fuzzy_correct (Text "Cudapah") district_map default_cutoff = Ok (Text "Ysr Kadapa")).
Proof.
  split; split; [reflexivity| |reflexivity|].
  - apply (fuzzy_correct_spec NaN district_map). reflexivity.
  - destruct (proj2 (proj2 (fuzzy_correct_spec (Text "Cudapah") district_map)) eq_refl)
      as (key & Hkey & _ & Hclose & _).
    vm_compute in Hkey. injection Hkey as <-.
    destruct Hclose as (k & v & Hg & _ & _ & _ & Hv & Hr).
    + apply (bool_decide_unpack _). vm_compute. reflexivity.
    + exists "cuddapah". split.
      * vm_compute. left.
      * apply Qle_bool_iff. vm_compute. reflexivity.
    + vm_compute in Hg. injection Hg as <-.
      vm_compute in Hv. injection Hv as <-. exact Hr.
Defined.

(** C9.  [fuzzy_correct] is a function of its arguments alone, and its
    result does not depend on the order the dictionary is iterated in: two
    dictionaries with the same entries give the same result for every value
    and cutoff.  When several keys tie for the best ratio, the key chosen is
    the greatest of them in string order, whatever their positions. *)
Theorem fuzzy_correct_deterministic (value_ : value) (cutoff : Q) (m1 m2 : Dict.t) :
  NoDup (Dict.keys m1) -> m1 ≡ₚ m2 ->
  fuzzy_correct value_ m1 cutoff = fuzzy_correct value_ m2 cutoff /\
  (forall key k,
     (0 <= cutoff)%Q -> (cutoff <= 1)%Q ->
     get_close_matches key (Dict.keys m1) 1 cutoff = Ok [k] ->
     get_close_matches key (Dict.keys m2) 1 cutoff = Ok [k] /\
     forall x, x ∈ Dict.keys m1 -> (similarity key x == similarity key k)%Q ->
               Str.gt x k = false).
Proof.
  intros Hnd Hp.
  assert (Hkeys : forall x, x ∈ Dict.keys m1 <-> x ∈ Dict.keys m2).
  { intros x. unfold Dict.keys. by rewrite Hp. }
  assert (Hgcm : forall key, (0 <= cutoff)%Q -> (cutoff <= 1)%Q ->
            get_close_matches key (Dict.keys m1) 1 cutoff
            = get_close_matches key (Dict.keys m2) 1 cutoff).
  { intros key H0 H1.
    destruct (get_close_matches_cases key (Dict.keys m1) cutoff H0 H1)
      as [[E1 A1]|(k1 & E1 & I1 & C1 & M1)];
    destruct (get_close_matches_cases key (Dict.keys m2) cutoff H0 H1)
      as [[E2 A2]|(k2 & E2 & I2 & C2 & M2)]; rewrite E1, E2.
    - done.
    - apply Hkeys in I2. specialize (A1 k2 I2). lra.
    - apply Hkeys in I1. specialize (A2 k1 I1). lra.
    - pose proof (M1 k2 (proj2 (Hkeys k2) I2) C2) as G21.
      pose proof (M2 k1 (proj1 (Hkeys k1) I1) C1) as G12.
      apply tuple_gt_false in G21 as [L|[Q21 S21]];
        apply tuple_gt_false in G12 as [L'|[Q12 S12]]; simpl in *; try lra.
      by rewrite (gt_total _ _ S12 S21). }
  split.
  - unfold fuzzy_correct. destruct (isna value_); [done|].
    destruct (normalize value_) as [key|]; [|done].
    assert (Hc : Dict.contains m1 key = Dict.contains m2 key).
    { unfold Dict.contains. by rewrite (get_perm m1 m2 key Hnd Hp). }
    rewrite <- Hc. unfold Dict.getitem. rewrite <- (get_perm m1 m2 key Hnd Hp).
    destruct (Dict.contains m1 key); [done|].
    destruct (Qlt_le_dec cutoff 0) as [Hlt|H0].
    { unfold get_close_matches. simpl (negb (0 <? 1)). cbn iota.
      assert (Qle_bool 0 cutoff = false) as ->; [|done].
      destruct (Qle_bool 0 cutoff) eqn:E; [|done]. apply Qle_bool_iff in E. lra. }
    destruct (Qlt_le_dec 1 cutoff) as [Hlt|H1].
    { unfold get_close_matches. simpl (negb (0 <? 1)). cbn iota.
      assert (Qle_bool cutoff 1 = false) as ->; [|by rewrite andb_false_r].
      destruct (Qle_bool cutoff 1) eqn:E; [|done]. apply Qle_bool_iff in E. lra. }
    rewrite <- (Hgcm key H0 H1).
    destruct (get_close_matches key (Dict.keys m1) 1 cutoff) as [[|k ?]|e|]; try done.
    cbn [bind]. by rewrite (get_perm m1 m2 k Hnd Hp).
  - intros key k H0 H1 E. split; [by rewrite <- Hgcm|].
    intros x Hx Heq.
    destruct (get_close_matches_cases key (Dict.keys m1) cutoff H0 H1)
      as [[E1 _]|(k1 & E1 & I1 & C1 & M1)]; rewrite E1 in E; [done|].
    injection E as ->.
    assert (Hcx : (cutoff <= similarity key x)%Q) by lra.
    specialize (M1 x Hx Hcx). apply tuple_gt_false in M1. simpl in M1.
    destruct M1 as [L|[_ G]]; [lra|done].
Qed.

Lemma fuzzy_correct_deterministic_witness :
  NoDup (Dict.keys district_map) /\
  district_map ≡ₚ reverse district_map /\
  fuzzy_correct (Text "Cudapah") district_map default_cutoff
  = fuzzy_correct (Text "Cudapah") (reverse district_map) default_cutoff.
Proof.
  assert (H1 : NoDup (Dict.keys district_map)).
  { apply (bool_decide_unpack _). vm_compute. reflexivity. }
  assert (H2 : district_map ≡ₚ reverse district_map).
  { symmetry. apply reverse_Permutation. }
  split; [exact H1|]. split; [exact H2|].
  exact (proj1 (fuzzy_correct_deterministic (Text "Cudapah") default_cutoff
                  district_map (reverse district_map) H1 H2)).
Defined.

(** C10.  For a value that is not missing and either runtime dictionary,
    [fuzzy_correct] returns and raises nothing: the key is a string, the
    close matches are keys of the dictionary, so [mapping[matches[0]]] is
    defined, and every branch returns a value. *)
Theorem fuzzy_correct_total (value_ : value) (mapping : Dict.t) :
  mapping = district_map \/ mapping = state_map ->
  isna value_ = false ->
  (exists r, fuzzy_correct value_ mapping default_cutoff = Ok r) /\
  (exists key matches,
     normalize value_ = Some key /\
     get_close_matches key (Dict.keys mapping) 1 default_cutoff = Ok matches /\
     forall m, m ∈ matches ->
       m ∈ Dict.keys mapping /\ exists v, Dict.getitem mapping m = Ok v).
Proof.
  intros _ Hna. split; [apply fuzzy_correct_returns|].
  exists (normalize_text (py_str value_)).
  destruct default_cutoff_range as [H0 H1].
  destruct (get_close_matches_cases (normalize_text (py_str value_))
              (Dict.keys mapping) default_cutoff H0 H1)
    as [[E _]|(k & E & Hin & _)]; rewrite E; eexists; (split; [by apply normalize_present|]);
    (split; [done|]); intros m Hm.
  - by apply elem_of_nil in Hm.
  - apply list_elem_of_singleton in Hm as ->. split; [done|].
    destruct (elem_get _ _ Hin) as [v Hv]. exists v.
    unfold Dict.getitem. by rewrite Hv.
Qed.

Lemma fuzzy_correct_total_witness :
  (district_map = district_map \/ district_map = state_map) /\
  isna (Scalar "42") = false /\
  exists r, fuzzy_correct (Scalar "42") district_map default_cutoff = Ok r.
Proof.
  split; [left; reflexivity|]. split; [reflexivity|].
  exact (proj1 (fuzzy_correct_total (Scalar "42") district_map
                  (or_introl eq_refl) eq_refl)).
Defined.

End FuzzyCorrect.

(** ** The seed dictionaries *)

Section Seeds.
Import MatchSpec.

(** C4, as the program behaves: "Cuddapah " and the misspelling "Cudapah"
    resolve to "Ysr Kadapa"; "Kadapa" has ratio 8/14 to "cuddapah", below the
    cutoff like its ratio to every other key, and is returned unchanged; so
    is "Mumbai", every ratio of which is below the cutoff. *)
Theorem correct_examples :
  correct (Text "Cuddapah ") district_map = Ok (Text "Ysr Kadapa") /\
  correct (Text "Cudapah") district_map = Ok (Text "Ysr Kadapa") /\
  (similarity "cudapah" "cuddapah" == 14 # 15)%Q /\
  correct (Text "Kadapa") district_map = Ok (Text "Kadapa") /\
  (similarity "kadapa" "cuddapah" == 8 # 14)%Q /\
  Forall (fun k => (similarity "kadapa" k < default_cutoff)%Q) (Dict.keys district_map) /\
  correct (Text "Mumbai") district_map = Ok (Text "Mumbai") /\
  Forall (fun k => (similarity "mumbai" k < default_cutoff)%Q) (Dict.keys district_map).
Proof.
  assert (Hkeys : Dict.keys district_map
                  = ["cuddapah"; "allahabad"; "faizabad"; "bardhaman"; "hugli"])
    by (vm_compute; reflexivity).
  rewrite Hkeys.
  split; [vm_compute; reflexivity|].
  split; [vm_compute; reflexivity|].
  split; [vm_compute; reflexivity|].
  split; [vm_compute; reflexivity|].
  split; [vm_compute; reflexivity|].
  split; [repeat constructor; apply Qlt_alt; vm_compute; reflexivity|].
  split; [vm_compute; reflexivity|].
  repeat constructor; apply Qlt_alt; vm_compute; reflexivity.
Qed.

(** C4 as stated fails: "Kadapa" does not resolve to "Ysr Kadapa". *)
Lemma correct_examples_counterexample :
  ~ (correct (Text "Cuddapah ") district_map = Ok (Text "Ysr Kadapa") /\
     correct (Text "Kadapa") district_map = Ok (Text "Ysr Kadapa") /\
     correct (Text "Cudapah") district_map = Ok (Text "Ysr Kadapa") /\
     correct (Text "Mumbai") district_map = Ok (Text "Mumbai")).
Proof.
  intros (_ & H & _). vm_compute in H. discriminate H.
Qed.

(** C5.  Every seed entry (original, canonical) of either dictionary is
    corrected to its canonical form, and so are the original in upper case
    and the original with a space on either side. *)
Theorem seed_entries_corrected (seed : Dict.t) (original canonical : string) :
  seed = district_renames \/ seed = state_corrections ->
  (original, canonical) ∈ Dict.items seed ->
  correct (Text original) (normalized_dict seed) = Ok (Text canonical) /\
  (exists u, Str.upper original = Some u /\
             correct (Text u) (normalized_dict seed) = Ok (Text canonical)) /\
  correct (Text (" " ++ original ++ " ")) (normalized_dict seed) = Ok (Text canonical).
Proof.
  intros [-> | ->] Hin; unfold Dict.items, district_renames, state_corrections in Hin;
    repeat (apply elem_of_cons in Hin as [[= -> ->]|Hin];
            [split; [vm_compute; reflexivity|];
             split; [eexists; split; [vm_compute; reflexivity|vm_compute; reflexivity]
                    |vm_compute; reflexivity]|]);
    exfalso; by apply elem_of_nil in Hin.
Qed.

Lemma seed_entries_corrected_witness :
  correct (Text "Hugli") district_map = Ok (Text "Hooghly") /\
  (exists u, Str.upper "Hugli" = Some u /\
             correct (Text u) district_map = Ok (Text "Hooghly")) /\
  correct (Text " Hugli ") district_map = Ok (Text "Hooghly").
Proof.
  apply (seed_entries_corrected district_renames "Hugli" "Hooghly").
  - left. reflexivity.
  - unfold Dict.items, district_renames. do 4 right. left.
Defined.

(** C8.  Every canonical string of either runtime dictionary is a fixed
    point of [correct], so correcting it twice gives what correcting it once
    gives. *)
Theorem canonical_fixed_point (dictionary : Dict.t) (v : string) :
  dictionary = district_map \/ dictionary = state_map ->
  v ∈ Dict.values dictionary ->
  correct (Text v) dictionary = Ok (Text v) /\
  (r <- correct (Text v) dictionary ;; correct r dictionary)
  = correct (Text v) dictionary.
Proof.
  assert (Hd : Dict.values district_map
               = ["Ysr Kadapa"; "Prayagraj"; "Ayodhya"; "Purba Bardhaman"; "Hooghly"])
    by (vm_compute; reflexivity).
  assert (Hs : Dict.values state_map
               = ["West Bengal"; "Odisha"; "Andhra Pradesh"; "Uttarakhand"])
    by (vm_compute; reflexivity).
  intros [-> | ->] Hin; [rewrite Hd in Hin|rewrite Hs in Hin];
    repeat (apply elem_of_cons in Hin as [->|Hin];
            [split; vm_compute; reflexivity|]);
    exfalso; by apply elem_of_nil in Hin.
Qed.

Lemma canonical_fixed_point_witness :
  correct (Text "West Bengal") state_map = Ok (Text "West Bengal") /\
  (r <- correct (Text "West Bengal") state_map ;; correct r state_map)
  = correct (Text "West Bengal") state_map.
Proof.
  apply (canonical_fixed_point state_map "West Bengal").
  - right. reflexivity.
  - assert (Hs : Dict.values state_map
                 = ["West Bengal"; "Odisha"; "Andhra Pradesh"; "Uttarakhand"])
      by (vm_compute; reflexivity).
    rewrite Hs. left.
Defined.

End Seeds.

(** ** The table cleaner *)

Section CleanFileFacts.
Import FrameSpec FrameFacts.
Context {content : Type}.
Variables read_csv read_excel : content -> exn + DataFrame.
Variables to_csv to_excel : DataFrame -> written content.

Local Abbreviation load' := (load read_csv read_excel).
Local Abbreviation serialize' := (serialize to_csv to_excel).
Local Abbreviation clean_file' := (clean_file read_csv read_excel to_csv to_excel).



(** C7, as the program behaves.  [clean_file] has three outcomes.  Either
    it returns, and then the table was read, both columns were located,
    every cell of the state column and then every cell of the district
    column was replaced by its correction, all other cells were kept, and
    the table so obtained was written to the output path.  Or it raises
    before the write, because the read or the column check failed, and
    then no file was written; in particular a missing state or district
    column leaves the files as they were.  Or the writer itself raises:
    then the output path holds whatever the writer left behind, which may
    be a file it created, and no other file has changed. *)
Theorem clean_file_all_or_nothing (input_path output_path : string)
    (fs : gmap string content) :
  match clean_file' input_path output_path fs with
  | (Ok _, fs') =>
      exists (df df' : DataFrame) (state_cols district_cols : list label)
             (state_col district_col : label) (c : content),
        load' fs input_path = Ok df /\
        matching_columns "state" df = Ok state_cols /\
        head state_cols = Some state_col /\
        matching_columns "district" df = Ok district_cols /\
        head district_cols = Some district_col /\
        clean_table df = Ok df' /\
        Frame.columns df' = Frame.columns df /\
        (NoDup (Frame.columns df) ->
         forall (n : nat) col cells,
           df !! n = Some (col, cells) ->
           exists mid cells',
             df' !! n = Some (col, cells') /\
             (col = state_col ->
              Forall2 (fun x y => fuzzy_correct x state_map default_cutoff = Ok y)
                      cells mid) /\
             (col <> state_col -> mid = cells) /\
             (col = district_col ->
              Forall2 (fun x y => fuzzy_correct x district_map default_cutoff = Ok y)
                      mid cells') /\
             (col <> district_col -> cells' = mid)) /\
        serialize' output_path df' = Stored c /\
        fs' = <[output_path := c]> fs
  | (Raise e, fs') =>
      ((load' fs input_path = Raise e \/
        exists df, load' fs input_path = Ok df /\ clean_table df = Raise e) /\
       fs' = fs)
      \/
      (exists (df df' : DataFrame) (left_behind : option content),
         load' fs input_path = Ok df /\ clean_table df = Ok df' /\
         serialize' output_path df' = Failed e left_behind /\
         fs' = match left_behind with
               | Some c => <[output_path := c]> fs
               | None => fs
               end)
  | (Unfinished, _) => False
  end /\
  (forall df,
     load' fs input_path = Ok df ->
     matching_columns "state" df = Ok [] \/ matching_columns "district" df = Ok [] ->
     exists msg,
       (msg = "State column not found" \/ msg = "District column not found") /\
       clean_file' input_path output_path fs = (Raise (ValueError msg), fs)).
Proof.
  unfold clean_file. split.
  - destruct (load' fs input_path) as [df|e|] eqn:Hload.
    + destruct (clean_table_cases df)
        as [(Hex & Es & E)|[[Es E]|[(scs & Es & Hne & Ed & E)
           |(scs & dcs & sc & dc & s1 & c1 & s2 & c2 & Es & Ed & Hs & Hd & G1 & F1 & G2 & F2 & E)]]];
        rewrite E; try (left; split; [right; by exists df|done]).
      destruct (serialize' output_path _) as [c|e [c|]] eqn:Ew; simpl.
      * eexists df, _, scs, dcs, sc, dc, c. do 6 (split; [done|]).
        split; [by rewrite !columns_setitem|].
        split; [|done].
        intros Hnd. by apply (cleaned_cells df sc dc s1 c1 s2 c2).
      * right. by eexists df, _, (Some c).
      * right. by eexists df, _, None.
    + left. split; [by left|done].
    + unfold load, read in Hload.
      destruct (Str.endswith input_path ".csv"), (fs !! input_path) as [c|];
        try done; [destruct (read_csv c)|destruct (read_excel c)]; done.
  - intros df -> Hmiss.
    destruct (clean_table_cases df)
      as [(Hex & Es & E)|[[Es E]|[(scs & Es & Hne & Ed & E)
         |(scs & dcs & sc & dc & s1 & c1 & s2 & c2 & Es & Ed & Hs & Hd & _ & _ & _ & _ & E)]]];
      rewrite E.
    + exfalso. destruct Hmiss as [Hn|Hn]; [congruence|].
      apply matching_columns_Ok in Hn as [Hall _]. by apply (text_and_not df).
    + eexists. split; [by left|done].
    + eexists. split; [by right|done].
    + exfalso. destruct Hmiss as [Hn|Hn]; [rewrite Hn in Es|rewrite Hn in Ed];
        simplify_eq; done.
Qed.
End CleanFileFacts.

(** *** The table cleaner on the sample tables *)

Section CleanFileExamples.
Import Samples FrameSpec.




(** C7 as stated fails for a writer that raises after it has created the
    file: [clean_file] raises and the output path holds a file. *)
Lemma partial_output_counterexample :
  clean_file parse parse interrupted interrupted "in.csv" "out.csv" (files table)
  = (Raise IOError, <["out.csv" := []]> (files table)) /\
  files table !! "out.csv" = None /\
  (<["out.csv" := []]> (files table) : gmap string DataFrame) !! "out.csv" = Some [].
Proof.
  repeat split; vm_compute; reflexivity.
Qed.

Lemma clean_file_all_or_nothing_witness :
  load parse parse (files state_only) "in.csv" = Ok state_only /\
  (matching_columns "state" state_only = Ok [] \/
   matching_columns "district" state_only = Ok []) /\
  exists msg,
    (msg = "State column not found" \/ msg = "District column not found") /\
    run state_only = (Raise (ValueError msg), files state_only).
Proof.
  assert (H1 : load parse parse (files state_only) "in.csv" = Ok state_only)
    by reflexivity.
  assert (H2 : matching_columns "state" state_only = Ok [] \/
               matching_columns "district" state_only = Ok []) by (right; reflexivity).
  split; [exact H1|]. split; [exact H2|].
  exact (proj2 (clean_file_all_or_nothing parse parse print print "in.csv" "out.csv"
                  (files state_only)) state_only H1 H2).
Defined.

End CleanFileExamples.

Module PathFacts.
Import RouteSpec.

Lemma chars_app s t : chars (s ++ t)%string = chars s ++ chars t.
Proof. induction s as [|c s IH]; simpl; [done|]. by rewrite IH. Qed.

Lemma chars_inj s t : chars s = chars t -> s = t.
Proof.
  intros H. rewrite <- (string_of_list_ascii_of_string s),
    <- (string_of_list_ascii_of_string t). unfold chars in H. by rewrite H.
Qed.

Lemma append_assoc (s t u : string) : ((s ++ t) ++ u = s ++ (t ++ u))%string.
Proof. apply chars_inj. rewrite !chars_app. by rewrite app_assoc. Qed.

Lemma endswith_nil suffix :
  Str.endswith EmptyString suffix = String.eqb EmptyString suffix.
Proof. unfold Str.endswith. by destruct (String.eqb EmptyString suffix). Qed.

Lemma endswith_cons c s suffix :
  Str.endswith (String c s) suffix
  = if String.eqb (String c s) suffix then true else Str.endswith s suffix.
Proof. reflexivity. Qed.

(** [endswith] holds exactly of the strings that end with the suffix. *)
Lemma endswith_spec s suffix :
  Str.endswith s suffix = true <-> exists before, s = (before ++ suffix)%string.
Proof.
  split.
  - induction s as [|c s IH].
    + rewrite endswith_nil.
      destruct (String.eqb_spec EmptyString suffix) as [<-|]; [|done].
      by exists EmptyString.
    + rewrite endswith_cons.
      destruct (String.eqb_spec (String c s) suffix) as [<-|_].
      * by exists EmptyString.
      * intros H. destruct (IH H) as [before ->]. by exists (String c before).
  - intros [before ->]. induction before as [|c before IH].
    + change (EmptyString ++ suffix)%string with suffix.
      destruct suffix; [done|]. rewrite endswith_cons. by rewrite String.eqb_refl.
    + change (String c before ++ suffix)%string with (String c (before ++ suffix)%string).
      rewrite endswith_cons, IH. by destruct (String.eqb _ _).
Qed.

(** A suffix that lacks a character cannot start before the last place the
    character occurs at. *)
Lemma suffix_after {A : Type} (u : A) (l1 r1 l2 r2 : list A) :
  l1 ++ u :: r1 = l2 ++ r2 -> u ∉ r2 -> exists m, r1 = m ++ r2.
Proof.
  revert l2. induction l1 as [|a l1 IH]; intros [|x l2]; simpl; intros H Hu.
  - subst r2. exfalso. apply Hu. by left.
  - injection H as _ ->. by exists l2.
  - subst r2. exfalso. apply Hu. right. apply elem_of_app. right. by left.
  - injection H as _ H. by apply (IH l2).
Qed.

(** The text after the last occurrence of a character is determined. *)
Lemma last_split_unique {A : Type} (u : A) (l1 r1 l2 r2 : list A) :
  l1 ++ u :: r1 = l2 ++ u :: r2 -> u ∉ r1 -> u ∉ r2 -> l1 = l2 /\ r1 = r2.
Proof.
  revert l2. induction l1 as [|a l1 IH]; intros [|x l2]; simpl; intros H H1 H2.
  - by injection H as ->.
  - injection H as <- ->. exfalso. apply H1. apply elem_of_app. right. by left.
  - injection H as -> <-. exfalso. apply H2. apply elem_of_app. right. by left.
  - injection H as -> H. destruct (IH l2 H H1 H2) as [-> ->]. done.
Qed.

Lemma endswith_app_suffix s suffix : Str.endswith (s ++ suffix) suffix = true.
Proof. apply endswith_spec. by exists s. Qed.

(** What precedes a separator that the suffix lacks does not matter. *)
Lemma endswith_after_separator (u : ascii) (p f suffix : string) :
  u ∉ chars suffix ->
  Str.endswith (p ++ String u f) suffix = Str.endswith f suffix.
Proof.
  intros Hu. apply eq_true_iff_eq. rewrite !endswith_spec. split.
  - intros [before H]. apply (f_equal chars) in H. rewrite !chars_app in H.
    simpl in H. destruct (suffix_after u _ _ _ _ H Hu) as [m Hm].
    exists (string_of_list_ascii m). apply chars_inj.
    rewrite chars_app. unfold chars at 2.
    by rewrite list_ascii_of_string_of_list_ascii.
  - intros [before ->]. exists (p ++ String u before)%string.
    rewrite append_assoc. done.
Qed.

(** [rpartition] splits at the last occurrence of the separator. *)
Lemma rpartition_Some sep s before after :
  StrMore.rpartition sep s = Some (before, after) <->
  s = (before ++ String sep after)%string /\ sep ∉ chars after.
Proof.
  revert before after. induction s as [|c s IH]; intros before after; simpl.
  - split; [done|]. intros [H _]. by destruct before.
  - destruct (StrMore.rpartition sep s) as [[b a]|] eqn:E.
    + pose proof (proj1 (IH b a) eq_refl) as [-> Ha]. split.
      * by intros [= <- <-].
      * intros [H Hn]. apply (f_equal chars) in H.
        change (chars (String c (b ++ String sep a)))
          with (chars (String c b ++ String sep a)) in H.
        rewrite !chars_app in H. simpl in H.
        destruct (last_split_unique sep (c :: chars b) (chars a) (chars before)
                    (chars after) H Ha Hn) as [H1 H2].
        apply (chars_inj (String c b)) in H1. apply chars_inj in H2. by subst.
    + assert (Hnone : sep ∉ chars s).
      { clear IH. revert E. induction s as [|c' s IHs]; simpl.
        - intros _ H. by apply elem_of_nil in H.
        - destruct (StrMore.rpartition sep s) as [[? ?]|]; [done|].
          destruct (Ascii.eqb_spec c' sep) as [->|Hne]; [done|].
          intros _ H. apply elem_of_cons in H as [->|H]; [done|]. by apply IHs. }
      destruct (Ascii.eqb_spec c sep) as [->|Hne].
      * split.
        -- by intros [= <- <-].
        -- intros [H Hn]. apply (f_equal chars) in H.
           rewrite chars_app in H. simpl in H.
           destruct (last_split_unique sep [] (chars s) (chars before) (chars after))
             as [H1 H2]; [done..|].
           apply (chars_inj EmptyString) in H1. apply chars_inj in H2. by subst.
      * split; [done|]. intros [H Hn]. exfalso.
        destruct before as [|c0 before]; simpl in H.
        -- injection H as -> _. done.
        -- injection H as -> ->. apply Hnone. rewrite chars_app.
           apply elem_of_app. right. by left.
Qed.

Lemma rpartition_None sep s :
  StrMore.rpartition sep s = None <-> sep ∉ chars s.
Proof.
  induction s as [|c s IH]; simpl.
  - split; [intros _ H; by apply elem_of_nil in H|done].
  - destruct (StrMore.rpartition sep s) as [[b a]|] eqn:E.
    + split; [done|]. intros H. exfalso. apply H. right.
      apply rpartition_Some in E as [-> _]. rewrite chars_app.
      apply elem_of_app. right. by left.
    + destruct (Ascii.eqb_spec c sep) as [->|Hne].
      * split; [done|]. intros H. exfalso. apply H. by left.
      * split; [|done]. intros _ H. apply elem_of_cons in H as [->|H]; [done|].
        by apply IH in H.
Qed.

Lemma contains_cons needle c hay :
  Str.contains needle (String c hay)
  = if String.prefix needle (String c hay) then true else Str.contains needle hay.
Proof. reflexivity. Qed.

(** ["." in s] *)
Lemma contains_char (u : ascii) s :
  Str.contains (String u EmptyString) s = true <-> u ∈ chars s.
Proof.
  induction s as [|c s IH].
  - split; [done|]. intros H. by apply elem_of_nil in H.
  - rewrite contains_cons.
    change (String.prefix (String u EmptyString) (String c s))
      with (if Ascii.ascii_dec u c then String.prefix EmptyString s else false).
    destruct (Ascii.ascii_dec u c) as [->|Hne].
    + assert (String.prefix EmptyString s = true) as -> by (by destruct s).
      split; [|done]. intros _. by left.
    + rewrite IH. split; [by right|].
      intros H. apply elem_of_cons in H as [->|H]; done.
Qed.

End PathFacts.

(** * Further properties of the program *)

(** ** [allowed_file] and the paths of an upload *)

Module UploadFacts.
Import RouteSpec PathFacts.

(** What [allowed_file] answers. *)
Lemma allowed_file_cases (name : string) :
  exists b, allowed_file name = Ok b /\
    (b = true <->
     exists stem ext,
       name = (stem ++ "." ++ ext)%string /\
       ("."%char ∉ chars ext) /\
       Str.lower ext ∈ ALLOWED_EXTENSIONS).
Proof.
  unfold allowed_file.
  destruct (Str.contains "." name) eqn:Hdot.
  - apply contains_char in Hdot.
    destruct (StrMore.rpartition "." name) as [[stem ext]|] eqn:E;
      [|by apply rpartition_None in E].
    unfold StrMore.rsplit1. rewrite E.
    change (Difflib.index [stem; ext] 1) with (Ok ext). cbn [bind].
    eexists. split; [done|].
    pose proof (proj1 (rpartition_Some _ _ _ _) E) as [Hname Hext].
    rewrite bool_decide_eq_true. split.
    + intros Hin. by exists stem, ext.
    + intros (stem' & ext' & Hname' & Hext' & Hin).
      assert (E' : StrMore.rpartition "." name = Some (stem', ext'))
        by (by apply rpartition_Some).
      rewrite E in E'. by injection E' as -> ->.
  - exists false. split; [done|]. split; [done|].
    intros (stem & ext & -> & _). exfalso.
    assert (Hin : "."%char ∈ chars (stem ++ "." ++ ext)).
    { rewrite chars_app. apply elem_of_app. right. by left. }
    apply contains_char in Hin. congruence.
Qed.


(** The two paths [clean] joins are [uploads/<uid>_<name>] and
    [outputs/cleaned_<uid>_<name>]. *)
Lemma join_upload uid name :
  Str.all ishex uid = true ->
  OsPath.join UPLOAD_FOLDER (uid ++ "_" ++ name) = input_path_of uid name.
Proof.
  intros H. unfold OsPath.join.
  assert (StrMore.startswith (uid ++ "_" ++ name) "/" = false) as ->.
  { destruct uid as [|c uid]; [reflexivity|]. simpl in H.
    apply andb_true_iff in H as [Hc _].
    unfold StrMore.startswith.
    change (String.prefix "/" (String c uid ++ "_" ++ name))
      with (if Ascii.ascii_dec "/" c
            then String.prefix EmptyString (uid ++ "_" ++ name) else false).
    destruct (Ascii.ascii_dec "/" c) as [<-|]; [|done]. by vm_compute in Hc. }
  reflexivity.
Qed.

Lemma join_output uid name :
  OsPath.join OUTPUT_FOLDER ("cleaned_" ++ uid ++ "_" ++ name) = output_path_of uid name.
Proof. reflexivity. Qed.

Lemma endswith_input uid name suffix :
  "_"%char ∉ chars suffix ->
  Str.endswith (input_path_of uid name) suffix = Str.endswith name suffix.
Proof.
  intros H. unfold input_path_of.
  change ("uploads/" ++ uid ++ "_" ++ name)%string
    with ("uploads/" ++ (uid ++ String "_" name))%string.
  rewrite <- append_assoc. by apply endswith_after_separator.
Qed.

Lemma endswith_output uid name suffix :
  "_"%char ∉ chars suffix ->
  Str.endswith (output_path_of uid name) suffix = Str.endswith name suffix.
Proof.
  intros H. unfold output_path_of.
  change ("outputs/cleaned_" ++ uid ++ "_" ++ name)%string
    with ("outputs/cleaned_" ++ (uid ++ String "_" name))%string.
  rewrite <- append_assoc. by apply endswith_after_separator.
Qed.

Lemma endswith_extension stem ext :
  "."%char ∉ chars ext ->
  Str.endswith (stem ++ "." ++ ext) ".csv" = String.eqb ext "csv".
Proof.
  intros Hext. apply eq_true_iff_eq. rewrite endswith_spec, String.eqb_eq. split.
  - intros [before H]. apply (f_equal chars) in H. rewrite !chars_app in H.
    simpl in H.
    destruct (last_split_unique "."%char (chars stem) (chars ext) (chars before)
                (chars "csv")) as [_ H2]; [done|done|..].
    + vm_compute. intros Hin. repeat (apply elem_of_cons in Hin as [Hin|Hin]; [done|]).
      by apply elem_of_nil in Hin.
    + by apply chars_inj.
  - intros ->. by exists stem.
Qed.


Lemma allowed_file_accepts stem ext :
  "."%char ∉ chars ext -> Str.lower ext ∈ ALLOWED_EXTENSIONS ->
  allowed_file (stem ++ "." ++ ext) = Ok true.
Proof.
  intros Hext Hin.
  destruct (allowed_file_cases (stem ++ "." ++ ext)) as (b & -> & Hb).
  f_equal. apply Hb. by exists stem, ext.
Qed.


Lemma no_underscore_csv : "_"%char ∉ chars ".csv".
Proof.
  vm_compute. intros H. repeat (apply elem_of_cons in H as [H|H]; [done|]).
  by apply elem_of_nil in H.
Qed.

Section Dispatch.
Context {content : Type}.
Variables read_csv read_excel : content -> exn + DataFrame.
Variables to_csv to_excel : DataFrame -> written content.

Lemma load_dispatch uid stem ext (fs : gmap string content) :
  "."%char ∉ chars ext ->
  load read_csv read_excel fs (input_path_of uid (stem ++ "." ++ ext))
  = read (if String.eqb ext "csv" then read_csv else read_excel) fs
      (input_path_of uid (stem ++ "." ++ ext)).
Proof.
  intros Hext. unfold load.
  rewrite (endswith_input _ _ _ no_underscore_csv), (endswith_extension _ _ Hext).
  by destruct (String.eqb ext "csv").
Qed.

Lemma serialize_dispatch uid stem ext df :
  "."%char ∉ chars ext ->
  serialize to_csv to_excel (output_path_of uid (stem ++ "." ++ ext)) df
  = (if String.eqb ext "csv" then to_csv else to_excel) df.
Proof.
  intros Hext. unfold serialize.
  rewrite (endswith_output _ _ _ no_underscore_csv), (endswith_extension _ _ Hext).
  by destruct (String.eqb ext "csv").
Qed.
End Dispatch.

End UploadFacts.

Section AllowedFile.
Import RouteSpec PathFacts UploadFacts.

(** X1.  [allowed_file] never raises, and it accepts exactly the names
    whose text after the last dot, lower-cased, is csv, xlsx or xls; the
    text before that dot may be anything, also empty. *)
Theorem allowed_file_spec (name : string) :
  exists b, allowed_file name = Ok b /\
    (b = true <->
     exists stem ext,
       name = (stem ++ "." ++ ext)%string /\
       ("."%char ∉ chars ext) /\
       Str.lower ext ∈ ALLOWED_EXTENSIONS).
Proof. apply allowed_file_cases. Qed.

Section Readers.
Context {content : Type}.
Variables read_csv read_excel : content -> exn + DataFrame.
Variables to_csv to_excel : DataFrame -> written content.

(** X2.  An upload named [stem.ext] with an accepted extension is parsed
    by [clean_file] as delimited text only when [ext] is exactly "csv" in
    lower case; every other accepted name, "CSV" and "Csv" included, goes
    to the spreadsheet reader.  The writer of the output path is chosen by
    the same test, so the two always agree. *)
Theorem reader_of_upload (uid stem ext : string) (fs : gmap string content)
    (df : DataFrame) :
  "."%char ∉ chars ext ->
  Str.lower ext ∈ ALLOWED_EXTENSIONS ->
  allowed_file (stem ++ "." ++ ext) = Ok true /\
  load read_csv read_excel fs (input_path_of uid (stem ++ "." ++ ext))
  = read (if String.eqb ext "csv" then read_csv else read_excel) fs
      (input_path_of uid (stem ++ "." ++ ext)) /\
  serialize to_csv to_excel (output_path_of uid (stem ++ "." ++ ext)) df
  = (if String.eqb ext "csv" then to_csv else to_excel) df.
Proof.
  intros Hext Hin. split; [by apply allowed_file_accepts|].
  split; [by apply load_dispatch|by apply serialize_dispatch].
Qed.
End Readers.

Lemma reader_of_upload_witness :
  allowed_file "Census.CSV" = Ok true /\
  load Samples.parse MoreSamples.refuse
       {[ input_path_of "0f" "Census.CSV" := Samples.table ]}
       (input_path_of "0f" "Census.CSV")
  = Raise (ValueError "Excel file format cannot be determined").
Proof.
  destruct (reader_of_upload Samples.parse MoreSamples.refuse
              Samples.print Samples.print "0f" "Census" "CSV"
              {[ input_path_of "0f" "Census.CSV" := Samples.table ]} Samples.table)
    as (Hok & Hload & _).
  - vm_compute. intros H. repeat (apply elem_of_cons in H as [H|H]; [done|]).
    by apply elem_of_nil in H.
  - apply (bool_decide_unpack _). vm_compute. reflexivity.
  - split; [exact Hok|].
    change ("Census" ++ "." ++ "CSV")%string with "Census.CSV" in Hload.
    rewrite Hload. vm_compute. reflexivity.
Defined.

End AllowedFile.

(** ** The runtime dictionaries as built *)

Module DictBuild.
Import DictFacts.

Lemma get_set d k v k' :
  Dict.get (Dict.set d k v) k' = if String.eqb k k' then Some v else Dict.get d k'.
Proof.
  induction d as [|[k0 v0] d IH]; simpl.
  - done.
  - destruct (String.eqb_spec k0 k) as [->|Hne]; simpl.
    + destruct (String.eqb_spec k k'); done.
    + rewrite IH. destruct (String.eqb_spec k0 k') as [->|]; [|done].
      by destruct (String.eqb_spec k k') as [->|].
Qed.

Lemma keys_set d k v :
  Dict.keys (Dict.set d k v)
  = if Dict.contains d k then Dict.keys d else Dict.keys d ++ [k].
Proof.
  unfold Dict.contains. induction d as [|[k0 v0] d IH]; simpl; [done|].
  destruct (String.eqb_spec k0 k) as [->|Hne]; simpl; [done|].
  rewrite IH. by destruct (Dict.get d k).
Qed.

Lemma NoDup_set d k v : NoDup (Dict.keys d) -> NoDup (Dict.keys (Dict.set d k v)).
Proof.
  intros Hnd. rewrite keys_set. destruct (Dict.contains d k) eqn:E; [done|].
  apply NoDup_app. split; [done|]. split.
  - intros x Hx Hk. apply list_elem_of_singleton in Hk as ->.
    apply contains_false_keys in E. done.
  - apply NoDup_singleton.
Qed.

Lemma normalized_from seed : forall d,
  NoDup (Dict.keys d) ->
  NoDup (Dict.keys
           (fold_left (fun d kv => Dict.set d (normalize_text kv.1) kv.2) seed d)).
Proof.
  induction seed as [|[k v] seed IH]; intros d Hd; simpl; [done|].
  apply IH. by apply NoDup_set.
Qed.

Lemma get_normalized_from seed : forall d key,
  Dict.get (fold_left (fun d kv => Dict.set d (normalize_text kv.1) kv.2) seed d) key
  = match last (List.filter (fun kv => String.eqb (normalize_text kv.1) key) seed) with
    | Some kv => Some kv.2
    | None => Dict.get d key
    end.
Proof.
  induction seed as [|[k v] seed IH]; intros d key; simpl; [done|].
  rewrite IH, get_set. simpl.
  destruct (String.eqb (normalize_text k) key); [|done].
  rewrite last_cons. by destruct (last _).
Qed.

End DictBuild.

(** X3.  The dictionary built by [{normalize(k): v for k, v in seed.items()}]
    has pairwise distinct keys, each the normal form of a seed key; looking
    up a key gives the value of the last seed entry whose name normalises to
    it, so of two colliding seed names the later one wins, and a key that
    no seed name normalises to is absent. *)
Theorem normalized_dict_lookup (seed : Dict.t) (key : string) :
  NoDup (Dict.keys (normalized_dict seed)) /\
  Dict.get (normalized_dict seed) key
  = (snd <$> last (List.filter (fun kv => String.eqb (normalize_text (fst kv)) key)
                               (Dict.items seed))) /\
  (key ∈ Dict.keys (normalized_dict seed) <->
   exists k v, (k, v) ∈ Dict.items seed /\ normalize_text k = key).
Proof.
  unfold normalized_dict, Dict.items.
  split; [apply DictBuild.normalized_from; constructor|].
  assert (Hget : Dict.get
            (fold_left (fun d kv => Dict.set d (normalize_text kv.1) kv.2) seed []) key
          = snd <$> last (List.filter
                            (fun kv => String.eqb (normalize_text kv.1) key) seed)).
  { rewrite DictBuild.get_normalized_from. by destruct (last _). }
  split; [exact Hget|].
  rewrite <- DictFacts.contains_keys. unfold Dict.contains. rewrite Hget.
  destruct (last _) as [[k v]|] eqn:E; simpl.
  - split; [intros _|done]. apply last_Some_elem_of in E.
    apply list_elem_of_In, filter_In in E as [Hin Hk]. simpl in Hk.
    apply String.eqb_eq in Hk. exists k, v. split; [by apply list_elem_of_In|done].
  - split; [done|]. intros (k & v & Hin & Hk). exfalso.
    apply last_None in E.
    assert (Hf : (k, v) ∈ List.filter
              (fun kv : string * string => String.eqb (normalize_text kv.1) key) seed).
    { apply list_elem_of_In, filter_In. split; [by apply list_elem_of_In|].
      simpl. by apply String.eqb_eq. }
    rewrite E in Hf. by apply elem_of_nil in Hf.
Qed.

(** ** More on [fuzzy_correct] *)

Module FuzzyMore.
Import Difflib DifflibSpec RegionSpec MatchSpec RatioFacts OrderFacts
       CloseMatchFacts DictFacts FuzzyFacts RouteSpec.

Lemma matcher_a word x : a (matcher_for word x) = list_ascii_of_string x.
Proof. reflexivity. Qed.

Lemma matcher_b word x : b (matcher_for word x) = list_ascii_of_string word.
Proof.
  unfold matcher_for, set_seq2.
  by destruct (chain_b _ _ _) as [[? ?] ?].
Qed.

Lemma length_chars s : length (chars s) = String.length s.
Proof. induction s as [|c s IH]; simpl; [done|]. by rewrite IH. Qed.

(** The ratio of a possibility is bounded by the characters it shares with
    the word. *)
Lemma similarity_bound word x :
  (similarity word x
   <= calculate_ratio (Z.of_nat (common (chars x) (chars word)))
        (Z.of_nat (String.length x) + Z.of_nat (String.length word)))%Q.
Proof.
  destruct (similarity_le_quick word x) as [H _].
  rewrite quick_ratio_spec in H. unfold total_length in H.
  rewrite matcher_a, matcher_b in H.
  fold (chars x) in H. fold (chars word) in H.
  by rewrite !length_chars in H.
Qed.

(** The origin of a returned value. *)
Lemma fuzzy_correct_origin value_ mapping cutoff r :
  fuzzy_correct value_ mapping cutoff = Ok r ->
  r = value_ \/
  (isna value_ = false /\
   exists k x, k ∈ Dict.keys mapping /\ Dict.get mapping k = Some x /\ r = Text x).
Proof.
  unfold fuzzy_correct. destruct (isna value_) eqn:Hna; [intros [= <-]; by left|].
  destruct (normalize value_) as [key|]; [|done].
  assert (Hget : forall k y, Dict.getitem mapping k = Ok y ->
            k ∈ Dict.keys mapping /\ Dict.get mapping k = Some y).
  { unfold Dict.getitem. intros k y. destruct (Dict.get mapping k) as [x|] eqn:E; [|done].
    intros [= <-]. split; [|done]. apply get_Some_elem in E.
    apply list_elem_of_fmap. by exists (k, x). }
  destruct (Dict.contains mapping key).
  - destruct (Dict.getitem mapping key) as [x| |] eqn:E; simpl; try done.
    intros [= <-]. right. split; [done|]. exists key, x.
    destruct (Hget _ _ E). done.
  - destruct (get_close_matches key (Dict.keys mapping) 1 cutoff) as [[|k ?]|e|];
      simpl; try done.
    + intros [= <-]. by left.
    + destruct (Dict.getitem mapping k) as [x| |] eqn:E; simpl; try done.
      intros [= <-]. right. split; [done|]. exists k, x.
      destruct (Hget _ _ E). done.
Qed.

(** Lowering the cutoff keeps the match. *)
Lemma get_close_matches_lower word ps c c' k :
  (0 <= c')%Q -> (c' <= c)%Q -> (c <= 1)%Q ->
  get_close_matches word ps 1 c = Ok [k] ->
  get_close_matches word ps 1 c' = Ok [k].
Proof.
  intros H0 Hle H1 E.
  assert (H0c : (0 <= c)%Q) by lra. assert (H1c' : (c' <= 1)%Q) by lra.
  destruct (get_close_matches_cases word ps c H0c H1)
    as [[E1 _]|(k1 & E1 & I1 & C1 & M1)]; rewrite E1 in E; [done|].
  injection E as ->.
  destruct (get_close_matches_cases word ps c' H0 H1c')
    as [[E2 A2]|(k2 & E2 & I2 & C2 & M2)]; rewrite E2.
  - specialize (A2 k I1). lra.
  - assert (Hk : (c' <= similarity word k)%Q) by lra.
    pose proof (M2 k I1 Hk) as G.
    apply tuple_gt_false in G as [L|[Q1 S1]]; simpl in *.
    + assert (Hk2 : (c <= similarity word k2)%Q) by lra.
      pose proof (M1 k2 I2 Hk2) as G'.
      apply tuple_gt_false in G' as [L'|[Q2 S2]]; simpl in *; lra.
    + assert (Hk2 : (c <= similarity word k2)%Q) by lra.
      pose proof (M1 k2 I2 Hk2) as G'.
      apply tuple_gt_false in G' as [L'|[Q2 S2]]; simpl in *; [lra|].
      by rewrite (gt_total _ _ S1 S2).
Qed.

Lemma bad_cutoff word ps c :
  (c < 0)%Q \/ (1 < c)%Q ->
  get_close_matches word ps 1 c = Raise (ValueError "cutoff must be in [0.0, 1.0]").
Proof.
  intros H. unfold get_close_matches. simpl (negb (0 <? 1)). cbn iota.
  assert (Qle_bool 0 c && Qle_bool c 1 = false) as ->; [|done].
  apply andb_false_iff. destruct H as [H|H]; [left|right];
    (destruct (Qle_bool _ _) eqn:E; [|done]); apply Qle_bool_iff in E; lra.
Qed.

End FuzzyMore.

Section FuzzyCorrectMore.
Import Difflib RegionSpec MatchSpec RatioFacts CloseMatchFacts DictFacts FuzzyFacts
       FuzzyMore RouteSpec.

(** X4.  Whatever the dictionary and the cutoff, a value [fuzzy_correct]
    returns is either the value it was given or the text of an entry of the
    dictionary; a missing value stays missing and a present one stays
    present. *)
Theorem fuzzy_correct_result (value_ : value) (mapping : Dict.t) (cutoff : Q)
    (r : value) :
  fuzzy_correct value_ mapping cutoff = Ok r ->
  (r = value_ \/
   exists k x, k ∈ Dict.keys mapping /\ Dict.get mapping k = Some x /\ r = Text x) /\
  isna r = isna value_.
Proof.
  intros H. destruct (fuzzy_correct_origin _ _ _ _ H) as [->|(Hna & k & x & Hk & Hx & ->)].
  - split; [by left|done].
  - split; [right; by exists k, x|]. by rewrite Hna.
Qed.

Lemma fuzzy_correct_result_witness :
  fuzzy_correct (Text "Orisa") state_map default_cutoff = Ok (Text "Odisha") /\
  isna (Text "Odisha") = isna (Text "Orisa").
Proof.
  assert (H : fuzzy_correct (Text "Orisa") state_map default_cutoff = Ok (Text "Odisha"))
    by (vm_compute; reflexivity).
  split; [exact H|].
  exact (proj2 (fuzzy_correct_result _ _ _ _ H)).
Defined.

(** X5.  With a cutoff outside [0, 1] the call to [get_close_matches]
    raises [ValueError]; [fuzzy_correct] reaches that call only for a value
    that is present and whose key is not in the dictionary, so missing
    values and exact keys are still answered. *)
Theorem fuzzy_correct_cutoff_range (value_ : value) (mapping : Dict.t) (cutoff : Q) :
  (cutoff < 0)%Q \/ (1 < cutoff)%Q ->
  (isna value_ = true -> fuzzy_correct value_ mapping cutoff = Ok value_) /\
  (forall key x, isna value_ = false -> normalize value_ = Some key ->
     Dict.get mapping key = Some x ->
     fuzzy_correct value_ mapping cutoff = Ok (Text x)) /\
  (forall key, isna value_ = false -> normalize value_ = Some key ->
     Dict.get mapping key = None ->
     exists msg, fuzzy_correct value_ mapping cutoff = Raise (ValueError msg)).
Proof.
  intros Hc. unfold fuzzy_correct. repeat split.
  - by intros ->.
  - intros key x -> -> Hx. unfold Dict.contains, Dict.getitem. by rewrite Hx.
  - intros key -> -> Hx. unfold Dict.contains. rewrite Hx.
    rewrite (bad_cutoff _ _ _ Hc). eexists. done.
Qed.

Lemma fuzzy_correct_cutoff_range_witness :
  ((3 # 2 < 0)%Q \/ (1 < 3 # 2)%Q) /\
  fuzzy_correct (Text "Orissa") state_map (3 # 2) = Ok (Text "Odisha") /\
  exists msg, fuzzy_correct (Text "Orisa") state_map (3 # 2) = Raise (ValueError msg).
Proof.
  assert (H : (3 # 2 < 0)%Q \/ (1 < 3 # 2)%Q) by (right; reflexivity).
  split; [exact H|].
  destruct (fuzzy_correct_cutoff_range (Text "Orissa") state_map (3 # 2) H)
    as (_ & Hexact & _).
  destruct (fuzzy_correct_cutoff_range (Text "Orisa") state_map (3 # 2) H)
    as (_ & _ & Hraise).
  split.
  - apply (Hexact "orissa"); vm_compute; reflexivity.
  - apply (Hraise "orisa"); vm_compute; reflexivity.
Defined.

(** X6.  A value whose key is empty, such as text made of punctuation and
    whitespace only, is returned unchanged by every dictionary that lacks
    the empty key, for every cutoff in (0, 1]: the empty key has ratio 0 to
    every other key. *)
Theorem empty_key_unchanged (value_ : value) (mapping : Dict.t) (cutoff : Q) :
  (0 < cutoff)%Q -> (cutoff <= 1)%Q ->
  normalize value_ = Some EmptyString ->
  EmptyString ∉ Dict.keys mapping ->
  fuzzy_correct value_ mapping cutoff = Ok value_.
Proof.
  intros H0 H1 Hkey Hnot.
  assert (Hna : isna value_ = false).
  { unfold normalize in Hkey. by destruct (isna value_). }
  assert (H0' : (0 <= cutoff)%Q) by lra.
  destruct (fuzzy_correct_cases value_ mapping cutoff _ H0' H1 Hna Hkey)
    as [(v & Hin & _)|[(_ & _ & _ & E)|(k & v & _ & _ & Hk & Hck & _)]]; try done.
  exfalso. pose proof (similarity_bound EmptyString k) as Hb.
  assert (Hne : k <> EmptyString) by (intros ->; done).
  assert (Hcommon : common (chars k) (chars EmptyString) = 0%nat).
  { pose proof (common_le_min (chars k) (chars EmptyString)) as Hm.
    change (chars EmptyString) with (@nil ascii) in *. simpl in Hm. lia. }
  rewrite Hcommon in Hb.
  assert (Hlen : Z.of_nat (String.length k) + Z.of_nat (String.length EmptyString) <> 0).
  { destruct k; [done|]. simpl. lia. }
  unfold calculate_ratio in Hb. apply Z.eqb_neq in Hlen. rewrite Hlen in Hb.
  simpl in Hb.
  assert (Hz : (0 # Z.to_pos (Z.of_nat (String.length k) + 0) == 0)%Q) by reflexivity.
  rewrite Hz in Hb. lra.
Qed.

Lemma empty_key_unchanged_witness :
  (0 < default_cutoff)%Q /\ (default_cutoff <= 1)%Q /\
  normalize (Text " ?! ") = Some EmptyString /\
  (EmptyString ∉ Dict.keys district_map) /\
  fuzzy_correct (Text " ?! ") district_map default_cutoff = Ok (Text " ?! ").
Proof.
  assert (H0 : (0 < default_cutoff)%Q) by reflexivity.
  assert (H1 : (default_cutoff <= 1)%Q) by (unfold Qle; simpl; lia).
  assert (H2 : normalize (Text " ?! ") = Some EmptyString) by (vm_compute; reflexivity).
  assert (H3 : EmptyString ∉ Dict.keys district_map).
  { apply (bool_decide_unpack _). vm_compute. reflexivity. }
  repeat (split; [assumption|]).
  exact (empty_key_unchanged _ _ _ H0 H1 H2 H3).
Defined.

End FuzzyCorrectMore.

(** ** Applying the correction twice *)

Module IdemFacts.
Import DictFacts FuzzyFacts FuzzyMore FrameFacts.

Lemma origin_values value_ mapping cutoff r :
  fuzzy_correct value_ mapping cutoff = Ok r ->
  r = value_ \/ exists x, x ∈ Dict.values mapping /\ r = Text x.
Proof.
  intros H. destruct (fuzzy_correct_origin _ _ _ _ H) as [->|(_ & k & x & _ & Hx & ->)].
  - by left.
  - right. exists x. split; [|done]. apply get_Some_elem in Hx.
    apply list_elem_of_fmap. by exists (k, x).
Qed.

Lemma district_values :
  Dict.values district_map
  = ["Ysr Kadapa"; "Prayagraj"; "Ayodhya"; "Purba Bardhaman"; "Hooghly"].
Proof. vm_compute. reflexivity. Qed.

Lemma state_values :
  Dict.values state_map = ["West Bengal"; "Odisha"; "Andhra Pradesh"; "Uttarakhand"].
Proof. vm_compute. reflexivity. Qed.

(** The canonical names of both dictionaries are left alone by both. *)
Lemma canonical_kept (x : string) :
  x ∈ Dict.values district_map \/ x ∈ Dict.values state_map ->
  fuzzy_correct (Text x) district_map default_cutoff = Ok (Text x) /\
  fuzzy_correct (Text x) state_map default_cutoff = Ok (Text x).
Proof.
  rewrite district_values, state_values.
  intros [Hin|Hin];
    repeat (apply elem_of_cons in Hin as [->|Hin];
            [split; vm_compute; reflexivity|]);
    exfalso; by apply elem_of_nil in Hin.
Qed.

Lemma correct_again (m : Dict.t) value_ r :
  m = district_map \/ m = state_map ->
  fuzzy_correct value_ m default_cutoff = Ok r ->
  fuzzy_correct r m default_cutoff = Ok r.
Proof.
  intros Hm H. destruct (origin_values _ _ _ _ H) as [->|(x & Hx & ->)]; [done|].
  destruct Hm as [-> | ->].
  - apply canonical_kept. by left.
  - apply canonical_kept. by right.
Qed.

(** A district correction does not disturb a value the state correction
    leaves alone. *)
Lemma state_after_district value_ r :
  fuzzy_correct value_ state_map default_cutoff = Ok value_ ->
  fuzzy_correct value_ district_map default_cutoff = Ok r ->
  fuzzy_correct r state_map default_cutoff = Ok r.
Proof.
  intros Hs H. destruct (origin_values _ _ _ _ H) as [->|(x & Hx & ->)]; [done|].
  apply canonical_kept. by left.
Qed.

Lemma apply_fixed f series :
  Forall (fun x => f x = Ok x) series -> Frame.apply f series = Ok series.
Proof.
  induction 1 as [|x series Hx _ IH]; simpl; [done|].
  rewrite Hx. simpl. rewrite IH. done.
Qed.

Lemma setitem_same df col cells :
  (forall series, (col, series) ∈ df -> series = cells) ->
  Frame.setitem df col cells = df.
Proof.
  unfold Frame.setitem. induction df as [|[c s] df IH]; simpl; intros H; [done|].
  rewrite IH by (intros series Hin; apply H; by right).
  destruct (label_eqb_spec c col) as [->|Hne]; [|done].
  by rewrite (H s) by left.
Qed.

Lemma elem_setitem df col cells c series :
  (c, series) ∈ Frame.setitem df col cells ->
  (c = col /\ series = cells) \/ (c <> col /\ (c, series) ∈ df).
Proof.
  unfold Frame.setitem. intros H. apply list_elem_of_fmap in H as ([c' s] & E & Hin).
  simpl in E. destruct (label_eqb_spec c' col) as [->|Hne].
  - injection E as -> ->. by left.
  - injection E as -> ->. by right.
Qed.

Lemma matching_columns_setitem word df col cells :
  matching_columns word (Frame.setitem df col cells) = matching_columns word df.
Proof. unfold matching_columns. by rewrite columns_setitem. Qed.

Lemma Forall2_Forall_r {A B} (P : A -> B -> Prop) (Q : B -> Prop) l k :
  Forall2 P l k -> (forall x y, P x y -> Q y) -> Forall Q k.
Proof. induction 1; intros HPQ; constructor; eauto. Qed.

(** Cleaning a cleaned table changes nothing. *)
Lemma clean_table_again df df' :
  clean_table df = Ok df' -> clean_table df' = Ok df'.
Proof.
  intros H.
  destruct (clean_table_cases df)
    as [(_ & _ & E)|[[_ E]|[(scs & _ & _ & _ & E)
       |(scs & dcs & sc & dc & s1 & c1 & s2 & c2 & Es & Ed & Hs & Hd & G1 & F1 & G2 & F2 & E)]]];
    rewrite E in H; try done.
  injection H as <-.
  set (df' := Frame.setitem (Frame.setitem df sc c1) dc c2).
  assert (Hfix2 : Forall (fun y => fuzzy_correct y district_map default_cutoff = Ok y) c2).
  { apply (Forall2_Forall_r _ _ _ _ F2). intros x y Hxy.
    apply (correct_again district_map x); [by left|done]. }
  assert (Hfix1 : Forall (fun y => fuzzy_correct y state_map default_cutoff = Ok y) c1).
  { apply (Forall2_Forall_r _ _ _ _ F1). intros x y Hxy.
    apply (correct_again state_map x); [by right|done]. }
  pose (s1' := if label_eqb sc dc then c2 else c1).
  assert (Hfix1' : Forall (fun y => fuzzy_correct y state_map default_cutoff = Ok y) s1').
  { unfold s1'. destruct (label_eqb_spec sc dc) as [->|Hne]; [|done].
    rewrite getitem_setitem, G1, label_eqb_refl in G2. injection G2 as <-.
    clear - F2 Hfix1. revert c2 F2.
    induction Hfix1 as [|x c1 Hx _ IH]; intros c2 F2.
    - apply Forall2_nil_inv_l in F2 as ->. constructor.
    - apply Forall2_cons_inv_l in F2 as (y & c2' & Hy & F2 & ->).
      constructor; [by apply (state_after_district x)|by apply IH]. }
  assert (G1' : Frame.getitem df' sc = Ok s1').
  { unfold df', s1'. rewrite !getitem_setitem, G1. rewrite label_eqb_refl. done. }
  assert (G2' : Frame.getitem df' dc = Ok c2).
  { unfold df'. rewrite getitem_setitem, G2. by rewrite label_eqb_refl. }
  assert (S1 : Frame.setitem df' sc s1' = df').
  { apply setitem_same. intros series Hin. unfold df' in Hin.
    apply elem_setitem in Hin as [[-> ->]|[Hne Hin]].
    - unfold s1'. by rewrite label_eqb_refl.
    - apply elem_setitem in Hin as [[_ ->]|[Hne' _]]; [|done].
      unfold s1'. by destruct (label_eqb_spec sc dc). }
  assert (S2 : Frame.setitem df' dc c2 = df').
  { apply setitem_same. intros series Hin. unfold df' in Hin.
    apply elem_setitem in Hin as [[_ ->]|[Hne _]]; done. }
  unfold clean_table.
  assert (Ms : matching_columns "state" df' = matching_columns "state" df)
    by (unfold df'; by rewrite !matching_columns_setitem).
  assert (Md : matching_columns "district" df' = matching_columns "district" df)
    by (unfold df'; by rewrite !matching_columns_setitem).
  rewrite Ms, Md, Es, Ed. cbn [bind].
  destruct scs as [|sc' ?]; [done|]. destruct dcs as [|dc' ?]; [done|].
  injection Hs as ->. injection Hd as ->.
  rewrite G1'. cbn [bind]. rewrite (apply_fixed _ _ Hfix1'). cbn [bind].
  rewrite S1, G2'. cbn [bind]. rewrite (apply_fixed _ _ Hfix2). cbn [bind].
  by rewrite S2.
Qed.

End IdemFacts.

Section Twice.
Import Difflib RegionSpec MatchSpec RatioFacts CloseMatchFacts DictFacts FuzzyFacts
       FuzzyMore IdemFacts RouteSpec.

(** X7.  At the default cutoff 0.85, a present value whose key is not in
    the dictionary is returned unchanged when no key of the dictionary
    shares enough characters with it: for every key, 40 times the number
    of characters the two have in common, counted with multiplicity, stays
    below 17 times their total length. *)
Theorem unchanged_without_overlap (value_ : value) (mapping : Dict.t)
    (key : string) :
  isna value_ = false -> normalize value_ = Some key ->
  key ∉ Dict.keys mapping ->
  (forall k, k ∈ Dict.keys mapping ->
     40 * Z.of_nat (common (chars k) (chars key))
     < 17 * (Z.of_nat (String.length k) + Z.of_nat (String.length key))) ->
  fuzzy_correct value_ mapping default_cutoff = Ok value_.
Proof.
  intros Hna Hkey Hnot Hfew.
  destruct default_cutoff_range as [H0 H1].
  destruct (fuzzy_correct_cases value_ mapping default_cutoff _ H0 H1 Hna Hkey)
    as [(v & Hin & _)|[(_ & _ & _ & E)|(k & v & _ & _ & Hk & Hck & _)]]; try done.
  exfalso. pose proof (similarity_bound key k) as Hb. specialize (Hfew k Hk).
  assert (Hlen : Z.of_nat (String.length k) + Z.of_nat (String.length key) <> 0).
  { intros Hz. assert (k = key); [|by subst].
    destruct k, key; simpl in Hz; try done; lia. }
  unfold calculate_ratio in Hb. pose proof Hlen as Hpos.
  apply Z.eqb_neq in Hlen. rewrite Hlen in Hb. simpl negb in Hb. cbn iota in Hb.
  set (n := Z.of_nat (String.length k) + Z.of_nat (String.length key)) in *.
  set (m := Z.of_nat (common (chars k) (chars key))) in *.
  assert (Hn : 0 < n) by (unfold n in *; lia).
  assert (Hc : (default_cutoff <= 2 * m # Z.to_pos n)%Q) by lra.
  unfold default_cutoff, Qle in Hc. simpl in Hc.
  rewrite Z2Pos.id in Hc by done. lia.
Qed.

Lemma unchanged_without_overlap_witness :
  fuzzy_correct (Text "Goa") state_map default_cutoff = Ok (Text "Goa").
Proof.
  assert (Hkeys : Dict.keys state_map
                  = ["westbengal"; "orissa"; "andhra pradesh"; "uttaranchal"])
    by (vm_compute; reflexivity).
  apply (unchanged_without_overlap (Text "Goa") state_map "goa").
  - reflexivity.
  - vm_compute; reflexivity.
  - rewrite Hkeys. apply (bool_decide_unpack _). vm_compute. reflexivity.
  - rewrite Hkeys. apply Forall_forall.
    repeat constructor; vm_compute; reflexivity.
Defined.

(** X8.  Lowering the cutoff never undoes a correction: a value that
    [fuzzy_correct] changes at one cutoff is changed to the same text at
    every smaller cutoff. *)
Theorem lower_cutoff_keeps_correction (value_ : value) (mapping : Dict.t)
    (cutoff cutoff' : Q) (r : value) :
  (0 <= cutoff')%Q -> (cutoff' <= cutoff)%Q -> (cutoff <= 1)%Q ->
  fuzzy_correct value_ mapping cutoff = Ok r -> r <> value_ ->
  fuzzy_correct value_ mapping cutoff' = Ok r.
Proof.
  intros H0 Hle H1 H Hr. unfold fuzzy_correct in *.
  destruct (isna value_); [done|].
  destruct (normalize value_) as [key|]; [|done].
  destruct (Dict.contains mapping key); [done|].
  destruct (get_close_matches key (Dict.keys mapping) 1 cutoff)
    as [matches| |] eqn:E; try done.
  assert (H0c : (0 <= cutoff)%Q) by lra.
  destruct (get_close_matches_cases key (Dict.keys mapping) cutoff H0c H1)
    as [[E1 _]|(k & E1 & _)]; rewrite E1 in E; injection E as <-.
  - cbn [bind] in H. congruence.
  - by rewrite (get_close_matches_lower _ _ _ _ _ H0 Hle H1 E1).
Qed.

Lemma lower_cutoff_keeps_correction_witness :
  fuzzy_correct (Text "Orisa") state_map (1 # 2) = Ok (Text "Odisha").
Proof.
  apply (lower_cutoff_keeps_correction (Text "Orisa") state_map default_cutoff (1 # 2)).
  - unfold Qle; simpl; lia.
  - unfold Qle; simpl; lia.
  - apply default_cutoff_range.
  - vm_compute; reflexivity.
  - discriminate.
Defined.

(** X9.  Correction against either runtime dictionary is idempotent on
    every value: what [correct] returns, it returns unchanged when applied
    to it again. *)
Theorem correct_idempotent (dictionary : Dict.t) (value_ r : value) :
  dictionary = district_map \/ dictionary = state_map ->
  correct value_ dictionary = Ok r ->
  correct r dictionary = Ok r.
Proof. unfold correct. apply correct_again. Qed.

Lemma correct_idempotent_witness :
  correct (Text "Hooghly") district_map = Ok (Text "Hooghly").
Proof.
  apply (correct_idempotent district_map (Text " hugli")).
  - by left.
  - vm_compute; reflexivity.
Defined.

(** X10.  COLUMN CHECK and CLEAN are idempotent on a table with distinct
    column names: the table that [clean_table] returns is returned
    unchanged when it is cleaned again, also when one column serves as both
    the state and the district column. *)
Theorem clean_table_idempotent (df df' : DataFrame) :
  NoDup (Frame.columns df) ->
  clean_table df = Ok df' ->
  clean_table df' = Ok df'.
Proof. intros _. apply clean_table_again. Qed.

Lemma clean_table_idempotent_witness :
  clean_table
    [ (Name "State / District", [Text "Odisha"; Text "Hooghly"; NaN; Text "Goa"]) ]
  = Ok [ (Name "State / District", [Text "Odisha"; Text "Hooghly"; NaN; Text "Goa"]) ].
Proof.
  apply (clean_table_idempotent MoreSamples.merged).
  - repeat constructor. intros H. by apply elem_of_nil in H.
  - vm_compute. reflexivity.
Defined.

End Twice.

(** ** The [/clean] route *)

Section RouteFacts.
Import RouteSpec FrameSpec PathFacts UploadFacts FrameFacts.
Context {content : Type}.
Variables read_csv read_excel : content -> exn + DataFrame.
Variables to_csv to_excel : DataFrame -> written content.
Variable save : string -> content -> written content.

Local Abbreviation load_ := (load read_csv read_excel).
Local Abbreviation serialize_ := (serialize to_csv to_excel).
Local Abbreviation clean_file_ := (clean_file read_csv read_excel to_csv to_excel).
Local Abbreviation clean_upload_ :=
  (clean_upload read_csv read_excel to_csv to_excel save).
Local Abbreviation clean_ := (clean read_csv read_excel to_csv to_excel save).


Lemma call_settles {A : Type} (r : exn + A) : call r <> Unfinished.
Proof. by destruct r. Qed.

Lemma load_settles (fs : gmap string content) path : load_ fs path <> Unfinished.
Proof.
  unfold load, read.
  destruct (Str.endswith path ".csv"), (fs !! path); try done; apply call_settles.
Qed.

Lemma clean_table_settles df : clean_table df <> Unfinished.
Proof.
  destruct (clean_table_cases df)
    as [(_ & _ & E)|[[_ E]|[(scs & _ & _ & _ & E)
       |(scs & dcs & sc & dc & s1 & c1 & s2 & c2 & _ & _ & _ & _ & _ & _ & _ & _ & E)]]];
    by rewrite E.
Qed.

(** A write changes no path but its own. *)
Lemma commit_elsewhere path (w : written content) (fs : gmap string content) p :
  p <> path -> (commit path w fs).2 !! p = fs !! p.
Proof.
  intros Hp. destruct w as [c|e [c|]]; simpl; try done;
    by rewrite lookup_insert_ne.
Qed.

(** The four ways [clean_file] ends. *)
Lemma clean_file_outcomes input_path output_path (fs : gmap string content) :
  (exists e, load_ fs input_path = Raise e /\
     clean_file_ input_path output_path fs = (Raise e, fs))
  \/
  (exists df e, load_ fs input_path = Ok df /\ clean_table df = Raise e /\
     clean_file_ input_path output_path fs = (Raise e, fs))
  \/
  (exists df df' e left_behind,
     load_ fs input_path = Ok df /\ clean_table df = Ok df' /\
     serialize_ output_path df' = Failed e left_behind /\
     clean_file_ input_path output_path fs
     = (Raise e, match left_behind with
                 | Some c => <[output_path := c]> fs
                 | None => fs
                 end))
  \/
  (exists df df' c, load_ fs input_path = Ok df /\ clean_table df = Ok df' /\
     serialize_ output_path df' = Stored c /\
     clean_file_ input_path output_path fs = (Ok tt, <[output_path := c]> fs)).
Proof.
  unfold clean_file.
  pose proof (load_settles fs input_path) as Hl.
  destruct (load_ fs input_path) as [df|e|] eqn:El; [|left; by exists e|done].
  right. pose proof (clean_table_settles df) as Ht.
  destruct (clean_table df) as [df'|e|] eqn:Et; [|left; by exists df, e|done].
  right.
  destruct (serialize_ output_path df') as [c|e left_behind] eqn:Es; [right|left].
  - by exists df, df', c.
  - exists df, df', e, left_behind. by destruct left_behind.
Qed.


(** What the [try] block of [clean] answers and leaves on disk. *)
Lemma clean_upload_outcomes (file : FileStorage content) input_path output_path
    (fs : gmap string content) :
  (exists e left_behind,
     save input_path (stream file) = Failed e left_behind /\
     clean_upload_ file input_path output_path fs
     = (Ok (error_page e), match left_behind with
                           | Some c => <[input_path := c]> fs
                           | None => fs
                           end))
  \/
  (exists body e,
     save input_path (stream file) = Stored body /\
     (clean_file_ input_path output_path (<[input_path := body]> fs)).1 = Raise e /\
     clean_upload_ file input_path output_path fs
     = (Ok (error_page e),
        (clean_file_ input_path output_path (<[input_path := body]> fs)).2))
  \/
  (exists body df df' c,
     save input_path (stream file) = Stored body /\
     load_ (<[input_path := body]> fs) input_path = Ok df /\
     clean_table df = Ok df' /\
     serialize_ output_path df' = Stored c /\
     clean_upload_ file input_path output_path fs
     = (Ok (SendFile output_path),
        <[output_path := c]> (<[input_path := body]> fs))).
Proof.
  unfold clean_upload.
  destruct (save input_path (stream file)) as [body|e left_behind]; simpl.
  - right.
    destruct (clean_file_outcomes input_path output_path (<[input_path := body]> fs))
      as [(e & _ & E)|[(df & e & _ & _ & E)|[(df & df' & e & lb & _ & _ & _ & E)
         |(df & df' & c & Hl & Ht & Hs & E)]]]; rewrite E.
    + left. exists body, e. by rewrite E.
    + left. exists body, e. by rewrite E.
    + left. exists body, e. by rewrite E.
    + right. exists body, df, df', c. do 4 (split; [done|]).
      unfold send_file. by rewrite lookup_insert_eq.
  - left. exists e, left_behind. by destruct left_behind.
Qed.

(** The request reaches the [try] block exactly for a named, accepted
    upload. *)
Lemma clean_accepted files uid (fs : gmap string content) file :
  Str.all ishex uid = true ->
  files !! "file" = Some file ->
  allowed_file (filename file) = Ok true ->
  clean_ files uid fs
  = clean_upload_ file (input_path_of uid (filename file))
      (output_path_of uid (filename file)) fs.
Proof.
  intros Hu Hf Hok. unfold clean. rewrite Hf.
  destruct (String.eqb_spec (filename file) EmptyString) as [E|_].
  - rewrite E in Hok. by vm_compute in Hok.
  - by rewrite Hok, (join_upload _ _ Hu), join_output.
Qed.


(** What an accepted upload that was saved and read is answered with. *)
Lemma clean_read files uid (fs : gmap string content) file body df :
  Str.all ishex uid = true ->
  files !! "file" = Some file ->
  allowed_file (filename file) = Ok true ->
  save (input_path_of uid (filename file)) (stream file) = Stored body ->
  load_ (<[input_path_of uid (filename file) := body]> fs)
        (input_path_of uid (filename file)) = Ok df ->
  clean_ files uid fs
  = match clean_table df with
    | Ok df' =>
        match serialize_ (output_path_of uid (filename file)) df' with
        | Stored c =>
            (Ok (SendFile (output_path_of uid (filename file))),
             <[output_path_of uid (filename file) := c]>
               (<[input_path_of uid (filename file) := body]> fs))
        | Failed e (Some c) =>
            (Ok (error_page e),
             <[output_path_of uid (filename file) := c]>
               (<[input_path_of uid (filename file) := body]> fs))
        | Failed e None =>
            (Ok (error_page e), <[input_path_of uid (filename file) := body]> fs)
        end
    | Raise e => (Ok (error_page e), <[input_path_of uid (filename file) := body]> fs)
    | Unfinished => (Unfinished, <[input_path_of uid (filename file) := body]> fs)
    end.
Proof.
  intros Hu Hf Hok Hs Hl.
  rewrite (clean_accepted _ _ _ _ Hu Hf Hok).
  unfold clean_upload, clean_file. rewrite Hs. simpl. rewrite Hl.
  destruct (clean_table df) as [df'|e|]; [|done|done].
  destruct (serialize_ _ df') as [c|e [c|]]; simpl; [|done|done].
  unfold send_file. by rewrite lookup_insert_eq.
Qed.

End RouteFacts.

Section Route.
Import RouteSpec FrameSpec PathFacts UploadFacts FrameFacts.
Context {content : Type}.
Variables read_csv read_excel : content -> exn + DataFrame.
Variables to_csv to_excel : DataFrame -> written content.
Variable save : string -> content -> written content.

Local Abbreviation load' := (load read_csv read_excel).
Local Abbreviation serialize' := (serialize to_csv to_excel).
Local Abbreviation clean' := (clean read_csv read_excel to_csv to_excel save).

(** X11.  The [/clean] handler answers every request with a page or a
    download: no exception escapes it, whatever the form data, the readers,
    the writers and [save] do.  The extension test cannot fail on a name
    without a dot, and everything after it runs under the [try]. *)
Theorem clean_always_responds (files : gmap string (FileStorage content))
    (uid : string) (fs : gmap string content) :
  exists (r : response) (fs' : gmap string content),
    clean' files uid fs = (Ok r, fs').
Proof.
  unfold clean. destruct (files !! "file") as [file|]; [|eauto].
  destruct (String.eqb (filename file) EmptyString); [eauto|].
  destruct (allowed_file_cases (filename file)) as ([|] & -> & _); [|eauto].
  match goal with
  | |- context [clean_upload _ _ _ _ _ ?f ?i ?o ?d] =>
      destruct (clean_upload_outcomes read_csv read_excel to_csv to_excel save f i o d)
        as [(e & lb & _ & E)|[(body & e & _ & _ & E)
           |(body & df & df' & c & _ & _ & _ & _ & E)]]
  end; rewrite E; eauto.
Qed.


(** X13.  An accepted upload that was saved and read is answered by what
    the column check finds.  A column label that is not text, such as a
    number in the header row of a spreadsheet, ends the scan with
    [AttributeError], and the page shows "Error while processing file.
    Check format and columns.".  When every label is text and none
    contains "state" in lower case, the page shows "State column not
    found"; when one does and none contains "district", it shows "District
    column not found": these texts are the messages of the [ValueError]
    that [clean_file] raises.  In all three cases the upload stays on disk
    and nothing else is written. *)
Theorem clean_reports_missing_column (files : gmap string (FileStorage content))
    (uid : string) (fs : gmap string content) (file : FileStorage content)
    (body : content) (df : DataFrame) :
  Str.all ishex uid = true ->
  files !! "file" = Some file ->
  allowed_file (filename file) = Ok true ->
  save (input_path_of uid (filename file)) (stream file) = Stored body ->
  load' (<[input_path_of uid (filename file) := body]> fs)
        (input_path_of uid (filename file)) = Ok df ->
  (Exists (fun c => is_text c = false) (Frame.columns df) ->
   clean' files uid fs
   = (Ok (RenderUpload
            (Some (Cross "Error while processing file. Check format and columns."))),
      <[input_path_of uid (filename file) := body]> fs)) /\
  (matching_columns "state" df = Ok [] ->
   clean' files uid fs
   = (Ok (RenderUpload (Some (Cross "State column not found"))),
      <[input_path_of uid (filename file) := body]> fs)) /\
  (forall state_cols,
     matching_columns "state" df = Ok state_cols -> state_cols <> [] ->
     matching_columns "district" df = Ok [] ->
     clean' files uid fs
     = (Ok (RenderUpload (Some (Cross "District column not found"))),
        <[input_path_of uid (filename file) := body]> fs)).
Proof.
  intros Hu Hf Hok Hs Hl.
  rewrite (clean_read read_csv read_excel to_csv to_excel save
             files uid fs file body df Hu Hf Hok Hs Hl).
  destruct (clean_table_cases df)
    as [(Hex & Es & E)|[[Es E]|[(scs & Es & Hne & Ed & E)
       |(scs & dcs & sc & dc & s1 & c1 & s2 & c2 & Es & Ed & Hh & Hd & _)]]].
  - rewrite E. split; [done|]. split; [congruence|]. intros scs Es'. congruence.
  - rewrite E. split; [|split; [done|]].
    + intros Hex. apply matching_columns_Ok in Es as [Hall _].
      exfalso. by apply (text_and_not df).
    + intros scs Es' Hne. congruence.
  - rewrite E. split; [|split; [|done]].
    + intros Hex. apply matching_columns_Ok in Es as [Hall _].
      exfalso. by apply (text_and_not df).
    + intros Es'. congruence.
  - split; [|split].
    + intros Hex. apply matching_columns_Ok in Es as [Hall _].
      exfalso. by apply (text_and_not df).
    + intros Es'. rewrite Es' in Es. by simplify_eq/=.
    + intros scs' _ _ Ed'. rewrite Ed' in Ed. by simplify_eq/=.
Qed.

(** X14.  An accepted upload that was saved and read, and whose table has
    distinct text labels with a state and a district column among them, is
    always cleaned: the correction of the cells cannot fail.  The request
    is then answered with the download of [outputs/cleaned_<uid>_<name>],
    holding what the writer stored for the cleaned table, unless the
    writer itself raises: then the error page is shown, and the output path
    holds whatever the writer left behind. *)
Theorem clean_serves_cleaned (files : gmap string (FileStorage content))
    (uid : string) (fs : gmap string content) (file : FileStorage content)
    (body : content) (df : DataFrame) (state_cols district_cols : list label) :
  Str.all ishex uid = true ->
  files !! "file" = Some file ->
  allowed_file (filename file) = Ok true ->
  save (input_path_of uid (filename file)) (stream file) = Stored body ->
  load' (<[input_path_of uid (filename file) := body]> fs)
        (input_path_of uid (filename file)) = Ok df ->
  NoDup (Frame.columns df) ->
  matching_columns "state" df = Ok state_cols -> state_cols <> [] ->
  matching_columns "district" df = Ok district_cols -> district_cols <> [] ->
  exists df',
    clean_table df = Ok df' /\
    match serialize' (output_path_of uid (filename file)) df' with
    | Stored c =>
        clean' files uid fs
        = (Ok (SendFile (output_path_of uid (filename file))),
           <[output_path_of uid (filename file) := c]>
             (<[input_path_of uid (filename file) := body]> fs))
    | Failed e left_behind =>
        clean' files uid fs
        = (Ok (error_page e),
           match left_behind with
           | Some c =>
               <[output_path_of uid (filename file) := c]>
                 (<[input_path_of uid (filename file) := body]> fs)
           | None => <[input_path_of uid (filename file) := body]> fs
           end)
    end.
Proof.
  intros Hu Hf Hok Hs Hl _ Es Hns Ed Hnd.
  rewrite (clean_read read_csv read_excel to_csv to_excel save
             files uid fs file body df Hu Hf Hok Hs Hl).
  destruct (clean_table_cases df)
    as [(_ & Es' & _)|[[Es' _]|[(scs & _ & _ & Ed' & _)
       |(scs & dcs & sc & dc & s1 & c1 & s2 & c2 & _ & _ & _ & _ & _ & _ & _ & _ & E)]]];
    [congruence|congruence|congruence|].
  rewrite E. eexists. split; [done|].
  by destruct (serialize' _ _) as [c|e [c|]].
Qed.

End Route.

Section RouteExamples.
Import RouteSpec FrameSpec.


Lemma clean_reports_missing_column_witness :
  MoreSamples.serve "census.csv" Samples.population_only
  = (Ok (RenderUpload (Some (Cross "State column not found"))),
     {[ input_path_of "0f" "census.csv" := Samples.population_only ]}) /\
  MoreSamples.serve "census.csv" Samples.state_only
  = (Ok (RenderUpload (Some (Cross "District column not found"))),
     {[ input_path_of "0f" "census.csv" := Samples.state_only ]}) /\
  MoreSamples.serve "census.csv" Samples.numbered
  = (Ok (RenderUpload
           (Some (Cross "Error while processing file. Check format and columns."))),
     {[ input_path_of "0f" "census.csv" := Samples.numbered ]}).
Proof.
  destruct (clean_reports_missing_column Samples.parse MoreSamples.refuse Samples.print
              Samples.print MoreSamples.store
              (MoreSamples.upload "census.csv" Samples.population_only) "0f" ∅
              (mkFileStorage "census.csv" Samples.population_only)
              Samples.population_only Samples.population_only)
    as (_ & H1 & _);
    [reflexivity|vm_compute; reflexivity|vm_compute; reflexivity|reflexivity
    |vm_compute; reflexivity|].
  destruct (clean_reports_missing_column Samples.parse MoreSamples.refuse Samples.print
              Samples.print MoreSamples.store
              (MoreSamples.upload "census.csv" Samples.state_only) "0f" ∅
              (mkFileStorage "census.csv" Samples.state_only)
              Samples.state_only Samples.state_only)
    as (_ & _ & H2);
    [reflexivity|vm_compute; reflexivity|vm_compute; reflexivity|reflexivity
    |vm_compute; reflexivity|].
  destruct (clean_reports_missing_column Samples.parse MoreSamples.refuse Samples.print
              Samples.print MoreSamples.store
              (MoreSamples.upload "census.csv" Samples.numbered) "0f" ∅
              (mkFileStorage "census.csv" Samples.numbered)
              Samples.numbered Samples.numbered)
    as (H3 & _ & _);
    [reflexivity|vm_compute; reflexivity|vm_compute; reflexivity|reflexivity
    |vm_compute; reflexivity|].
  split; [|split].
  - apply H1. vm_compute. reflexivity.
  - apply (H2 [Name "State"]); [vm_compute; reflexivity|discriminate
                               |vm_compute; reflexivity].
  - apply H3. apply Exists_cons_hd. reflexivity.
Defined.

Lemma clean_serves_cleaned_witness :
  MoreSamples.serve "census.csv" Samples.table
  = (Ok (SendFile "outputs/cleaned_0f_census.csv"),
     <[ "outputs/cleaned_0f_census.csv" := Samples.cleaned ]>
       {[ "uploads/0f_census.csv" := Samples.table ]}).
Proof.
  destruct (clean_serves_cleaned Samples.parse MoreSamples.refuse Samples.print
              Samples.print MoreSamples.store
              (MoreSamples.upload "census.csv" Samples.table) "0f" ∅
              (mkFileStorage "census.csv" Samples.table) Samples.table Samples.table
              [Name "State"] [Name "District"])
    as (df' & Hdf' & H).
  - reflexivity.
  - vm_compute; reflexivity.
  - vm_compute; reflexivity.
  - reflexivity.
  - vm_compute; reflexivity.
  - repeat constructor; rewrite ?elem_of_cons, ?elem_of_nil; intros H;
      repeat destruct H as [H|H]; try discriminate H; done.
  - vm_compute; reflexivity.
  - discriminate.
  - vm_compute; reflexivity.
  - discriminate.
  - assert (E : clean_table Samples.table = Ok Samples.cleaned)
      by (vm_compute; reflexivity).
    rewrite E in Hdf'. injection Hdf' as <-.
    exact H.
Defined.

End RouteExamples.

(** ** More on [normalize] *)

Module NormalizeFacts.
Import StrFacts.

Lemma lower_char_twice c : Str.lower_char (Str.lower_char c) = Str.lower_char c.
Proof. destruct c as [[] [] [] [] [] [] [] []]; vm_compute; reflexivity. Qed.

Lemma lower_char_space c : Str.isspace (Str.lower_char c) = Str.isspace c.
Proof. destruct c as [[] [] [] [] [] [] [] []]; vm_compute; reflexivity. Qed.

Lemma lower_app s t : Str.lower (s ++ t) = (Str.lower s ++ Str.lower t)%string.
Proof.
  induction s as [|c s IH]; [done|].
  change (Str.lower (String c s ++ t))
    with (String (Str.lower_char c) (Str.lower (s ++ t))).
  by rewrite IH.
Qed.

Lemma lower_twice s : Str.lower (Str.lower s) = Str.lower s.
Proof.
  induction s as [|c s IH]; simpl; [done|]. by rewrite lower_char_twice, IH.
Qed.

Lemma lower_space s : Str.all Str.isspace (Str.lower s) = Str.all Str.isspace s.
Proof.
  induction s as [|c s IH]; simpl; [done|]. by rewrite lower_char_space, IH.
Qed.

Lemma lstrip_space ws s :
  Str.all Str.isspace ws = true -> Str.lstrip (ws ++ s) = Str.lstrip s.
Proof.
  induction ws as [|c ws IH]; [done|]. simpl.
  intros H. apply andb_true_iff in H as [-> H]. by apply IH.
Qed.

Lemma rstrip_space_only ws :
  Str.all Str.isspace ws = true -> Str.rstrip ws = EmptyString.
Proof.
  induction ws as [|c ws IH]; [done|]. simpl.
  intros H. apply andb_true_iff in H as [-> H]. by rewrite IH.
Qed.

Lemma rstrip_app s t :
  Str.rstrip (s ++ t)
  = match Str.rstrip t with
    | EmptyString => Str.rstrip s
    | r => (s ++ r)%string
    end.
Proof.
  induction s as [|c s IH].
  - change (EmptyString ++ t)%string with t. by destruct (Str.rstrip t).
  - change (Str.rstrip (String c s ++ t))
      with (match Str.rstrip (s ++ t) with
            | EmptyString => if Str.isspace c then EmptyString else String c EmptyString
            | r => String c r
            end).
    rewrite IH. destruct (Str.rstrip t) as [|d r]; [done|].
    by destruct s.
Qed.

Lemma rstrip_space s ws :
  Str.all Str.isspace ws = true -> Str.rstrip (s ++ ws) = Str.rstrip s.
Proof. intros H. by rewrite rstrip_app, (rstrip_space_only _ H). Qed.

Lemma rstrip_twice s : Str.rstrip (Str.rstrip s) = Str.rstrip s.
Proof.
  destruct (rstrip_decompose s) as (after & H & Ha).
  rewrite H at 2. by rewrite rstrip_space.
Qed.

(** [lstrip] returns a string that starts with no whitespace, so it is a
    suffix that [lstrip] keeps. *)
Lemma lstrip_fixed s :
  (forall c t, s = String c t -> Str.isspace c = false) -> Str.lstrip s = s.
Proof.
  destruct s as [|c t]; [done|]. intros H. simpl. by rewrite (H c t).
Qed.

Lemma rstrip_head c s :
  Str.isspace c = false ->
  exists t, Str.rstrip (String c s) = String c t.
Proof.
  intros Hc. simpl. destruct (Str.rstrip s); rewrite ?Hc; eauto.
Qed.

Lemma strip_twice s : Str.strip (Str.strip s) = Str.strip s.
Proof.
  unfold Str.strip at 1.
  rewrite lstrip_fixed by apply strip_first.
  unfold Str.strip. apply rstrip_twice.
Qed.

Lemma strip_space ws s ws' :
  Str.all Str.isspace ws = true -> Str.all Str.isspace ws' = true ->
  Str.strip (ws ++ s ++ ws') = Str.strip s.
Proof.
  intros H H'. unfold Str.strip. rewrite (lstrip_space _ _ H).
  destruct (lstrip_decompose s) as (before & E & Hb).
  destruct (Str.lstrip s) as [|c t] eqn:El.
  - (* [s] is whitespace only *)
    assert (Hs : Str.all Str.isspace s = true).
    { rewrite E. clear E. induction before as [|d before IH]; [done|].
      simpl in *. apply andb_true_iff in Hb as [-> Hb]. by apply IH. }
    assert (Hall : Str.all Str.isspace (s ++ ws') = true).
    { clear E El Hb. induction s as [|d s IH]; [done|].
      simpl in *. apply andb_true_iff in Hs as [-> Hs]. by apply IH. }
    destruct (lstrip_decompose (s ++ ws')) as (b2 & E2 & _).
    assert (Hl : Str.all Str.isspace (Str.lstrip (s ++ ws')) = true).
    { clear -Hall. induction (s ++ ws')%string as [|d u IH]; [done|].
      simpl in *. apply andb_true_iff in Hall as [Hd Hu]. rewrite Hd. by apply IH. }
    by rewrite (rstrip_space_only _ Hl).
  - (* [s = before ++ c t] with [c] no whitespace *)
    assert (Hc : Str.isspace c = false) by (by apply (lstrip_first s c t)).
    assert (El' : Str.lstrip (s ++ ws') = (String c t ++ ws')%string).
    { rewrite E at 1.
      assert (Hassoc : ((before ++ String c t) ++ ws')%string
                       = (before ++ (String c t ++ ws'))%string).
      { clear. induction before as [|d before IH]; [done|].
        exact (f_equal (String d) IH). }
      rewrite Hassoc, (lstrip_space _ _ Hb). simpl. by rewrite Hc. }
    rewrite El'. by apply rstrip_space.
Qed.

Lemma keep_fixed p s : Str.all p s = true -> Str.keep p s = s.
Proof.
  induction s as [|c s IH]; [done|]. simpl.
  intros H. apply andb_true_iff in H as [-> H]. by rewrite IH.
Qed.

Lemma all_app p s t : Str.all p (s ++ t) = Str.all p s && Str.all p t.
Proof.
  induction s as [|c s IH]; [done|].
  change (Str.all p (String c s ++ t)) with (p c && Str.all p (s ++ t)).
  rewrite IH. simpl. by rewrite andb_assoc.
Qed.

Lemma all_strip p s : Str.all p s = true -> Str.all p (Str.strip s) = true.
Proof.
  destruct (strip_decompose s) as (before & after & E & _).
  intros H. rewrite E, !all_app in H.
  apply andb_true_iff in H as [_ H]. by apply andb_true_iff in H as [H _].
Qed.

Lemma all_keep_lower s :
  Str.all (fun c => bool_decide (Str.lower_char c = c))
          (Str.keep (fun c => Str.isword c || Str.isspace c) (Str.strip (Str.lower s)))
  = true.
Proof.
  assert (Hl : Str.all (fun c => bool_decide (Str.lower_char c = c)) (Str.lower s) = true).
  { induction s as [|c s IH]; [done|]. simpl. rewrite IH, andb_true_r.
    apply bool_decide_eq_true. apply lower_char_twice. }
  apply all_strip in Hl. revert Hl.
  induction (Str.strip (Str.lower s)) as [|c u IH]; [done|].
  simpl. intros H. apply andb_true_iff in H as [Hc Hu].
  destruct (Str.isword c || Str.isspace c); simpl; [rewrite Hc|]; by apply IH.
Qed.

Lemma lower_fixed s :
  Str.all (fun c => bool_decide (Str.lower_char c = c)) s = true -> Str.lower s = s.
Proof.
  induction s as [|c s IH]; [done|]. simpl.
  intros H. apply andb_true_iff in H as [Hc H].
  apply bool_decide_eq_true in Hc. by rewrite Hc, IH.
Qed.

Lemma normalize_text_keep s :
  normalize_text s
  = Str.keep (fun c => Str.isword c || Str.isspace c) (Str.strip (Str.lower s)).
Proof. unfold normalize_text. apply re_sub_keep. Qed.

Lemma normalize_text_again s :
  normalize_text (normalize_text s) = Str.strip (normalize_text s).
Proof.
  rewrite (normalize_text_keep (normalize_text s)).
  assert (Hlow : Str.lower (normalize_text s) = normalize_text s).
  { apply lower_fixed. rewrite normalize_text_keep. apply all_keep_lower. }
  rewrite Hlow. apply keep_fixed, all_strip.
  rewrite normalize_text_keep. apply keep_all.
Qed.

End NormalizeFacts.

Section NormalizeMore.
Import StrFacts NormalizeFacts.

(** X15.  [normalize] strips before it removes punctuation, so a key may
    begin or end with whitespace that stood next to punctuation, and
    normalising a key again strips it: [normalize] applied twice is
    [normalize] followed by [strip].  From the second application on
    nothing changes any more, and a key is a fixed point of [normalize]
    exactly when [strip] leaves it alone. *)
Theorem normalize_twice (s : string) :
  normalize (Text (normalize_text s)) = Some (Str.strip (normalize_text s)) /\
  normalize_text (normalize_text (normalize_text s))
  = normalize_text (normalize_text s) /\
  (normalize_text (normalize_text s) = normalize_text s
   <-> Str.strip (normalize_text s) = normalize_text s) /\
  normalize_text "Hugli ." = "hugli " /\
  normalize_text "hugli " = "hugli".
Proof.
  split; [|split; [|split; [|split; vm_compute; reflexivity]]].
  - unfold normalize. simpl. by rewrite normalize_text_again.
  - rewrite !normalize_text_again.
    rewrite <- (normalize_text_again s) at 1.
    by rewrite normalize_text_again, strip_twice.
  - by rewrite normalize_text_again.
Qed.

(** X16.  [normalize] ignores letter case and whitespace around the text:
    padding a text with whitespace on either side, or lower-casing it
    first, gives the same key. *)
Theorem normalize_padding (ws s ws' : string) :
  Str.all Str.isspace ws = true -> Str.all Str.isspace ws' = true ->
  normalize (Text (ws ++ s ++ ws')) = normalize (Text s) /\
  normalize (Text (Str.lower s)) = normalize (Text s).
Proof.
  intros H H'. unfold normalize. simpl. unfold normalize_text. split.
  - rewrite !lower_app, strip_space; [done|by rewrite lower_space..].
  - by rewrite lower_twice.
Qed.

Lemma normalize_padding_witness :
  normalize (Text ("  " ++ "Hugli" ++ " ")) = normalize (Text "Hugli") /\
  normalize (Text (Str.lower "Hugli")) = normalize (Text "Hugli").
Proof. apply (normalize_padding "  " "Hugli" " "); reflexivity. Defined.

End NormalizeMore.
